(** * Tutorbook: the Data layer, the lesson timer and the snackbar

    A shallow embedding of the parts of the Tutorbook web app that carry
    logic of their own: [Data.concatArr], [Data.prototype.initTimes],
    [Data.updateUserAvailability], the guards of [Data.getUser],
    [Data.deleteUser], [Data.updateUser] and [Data.createUser], the REST
    wrapper [Data.post] with the wrappers built on it, the elapsed-time
    counter [ViewApptDialog.update], [Snackbar.view] and the account-URL
    fetch of [Payments.initStripe]; then the set-up of the Data object
    ([getLocations], [initLocations], [initPeriods], [initHourlyCharges]),
    [Data.combineMaps], [Data.cloneMap], [Data.getOther],
    [Data.trimObject] and the wrapper around Google Analytics.

    Conventions of the embedding:
    - a JS string is a [string]; an array of strings is a [list string];
    - a possibly [undefined] string property is an [option string], and it
      is falsy when it is [None] or [Some ""];
    - a JS object used as a dictionary is a [gmap string _] of its own
      properties (keys inherited from [Object.prototype] are not modelled);
    - the non-negative integers the code computes with are [N]: a JS number
      represents them exactly below 2^53;
    - asynchronous calls are sequenced as the [await]s sequence them, and
      what a function does to the outside world (documents read and written,
      HTTP requests, console lines) is recorded in a trace. *)

From Stdlib Require Import ZArith NArith Lia.
From Stdlib Require String Ascii DecimalString DecimalN.
From stdpp Require Import base option list strings gmap.

Local Open Scope Z_scope.
Import Ascii.AsciiSyntax.
Delimit Scope char_scope with char.

(** ** JavaScript built-ins used by the source *)

Module JS.

(** [!x] for a string-valued property that may be [undefined]. *)
Definition falsy (x : option string) : bool :=
  match x with
  | None => true
  | Some s => bool_decide (s = "")
  end.

Definition truthy (x : option string) : bool := negb (falsy x).

(** [a || b] on such properties. *)
Definition or_else (a b : option string) : option string :=
  if truthy a then a else b.

(** [Array.prototype.indexOf]: the first index holding [item], or -1. *)
Definition Array_indexOf (arr : list string) (item : string) : Z :=
  match list_find (λ y, y = item) arr with
  | Some (i, _) => Z.of_nat i
  | None => -1
  end.

(** [Array.prototype.findIndex]: the first index whose element satisfies
    [P], or -1. *)
Definition findIndex {A} (P : A → Prop) `{∀ x, Decision (P x)}
    (arr : list A) : Z :=
  match list_find P arr with
  | Some (i, _) => Z.of_nat i
  | None => -1
  end.

(** The string held by a property known to be truthy. *)
Definition the (x : option string) : string := default "" x.

(** A property next to a string in a concatenation. *)
Definition shown (x : option string) : string := default "undefined" x.

(** [String.prototype.indexOf]: the first index where [pat] occurs in
    [s], or -1. *)
Definition indexOf (s pat : string) : Z :=
  match String.index 0 pat s with
  | Some i => Z.of_nat i
  | None => -1
  end.

(** [String.prototype.replace] with a string pattern: only the first
    occurrence is replaced. *)
Definition replace (s pat by_ : string) : string :=
  match String.index 0 pat s with
  | Some i =>
      String.substring 0 i s +:+ by_ +:+
      String.substring (i + String.length pat)
                       (String.length s - (i + String.length pat)) s
  | None => s
  end.

(** [String.prototype.endsWith]. *)
Definition endsWith (s suffix : string) : bool :=
  let n := String.length s in
  let k := String.length suffix in
  bool_decide (k ≤ n)%nat &&
  bool_decide (String.substring (n - k) k s = suffix).

(** [String.prototype.split] with a one-character separator. [split_go]
    carries the field read so far. *)
Fixpoint split_go (sep : Ascii.ascii) (s : string) (cur : string)
  : list string :=
  match s with
  | EmptyString => [cur]
  | String c s' =>
      if bool_decide (c = sep) then cur :: split_go sep s' ""
      else split_go sep s' (cur +:+ String c "")
  end.

Definition split (s : string) (sep : Ascii.ascii) : list string :=
  split_go sep s "".

(** [Number.prototype.toString] of a non-negative integer, which is also
    what [+] does to a number next to a string. *)
Definition toString (n : N) : string :=
  DecimalString.NilZero.string_of_uint (N.to_uint n).

(** [new Number(s)] for a string of decimal digits ([""] gives 0, as in
    JS). [None] stands for every other string: [NaN] and the other
    numeric literals of JS are outside the embedding. *)
Definition Number (s : string) : option N :=
  N.of_uint <$> DecimalString.NilEmpty.uint_of_string s.

End JS.

(** ** The objects of the app and the outside world *)

(** A window of a user's availability, as Firestore stores it. The
    [booked] field may be missing on a stored window. *)
Record Timeslot := {
  open : string;
  close : string;
  booked : option bool;
}.

(** Location name to day to the windows of that day. *)
Abbreviation Availability := (gmap string (gmap string (list Timeslot))).

(** The fields of a user object that the Data layer reads or writes. *)
Record User := {
  uid : option string;
  id : option string;
  email : option string;
  name : option string;
  type : option string;
  availability : option Availability;
  location : option string;
  locations : list string;
}.

(** The fields of an appointment document that the availability update
    reads: [location.name], [time.day], [time.from] and [time.to]. *)
Record Appt := {
  location_name : string;
  time_day : string;
  time_from : string;
  time_to : string;
}.

Unset Elimination Schemes.

(** Values handed to and received from the REST API. *)
Inductive value :=
| VUndefined
| VBool (b : bool)
| VNumber (n : Z)
| VString (s : string)
| VArray (items : list value)
| VObject (fields : list (string * value))
| VUser (u : User).

Set Elimination Schemes.

Definition value_of_option (x : option string) : value :=
  match x with
  | Some s => VString s
  | None => VUndefined
  end.

(** What can be thrown, or what a promise can reject with. *)
Inductive exn :=
| Error (message : string)
| TypeError (message : string)
| Rejected (reason : string).

(** The argument of an [axios] call. *)
Record Request := {
  method : string;
  url : string;
  params : list (string * value);
  data : value;
}.

(** The effects a function has on the outside world, in order. *)
Inductive event :=
| FsGet (path : list string)
| FsSet (path : list string) (doc : User)
| FsUpdate (path : list string) (doc : User)
| FsDelete (path : list string)
| Http (r : Request)
| ConsoleWarn (line : string)
| ConsoleError (line : string)
| SetTimeout (handler : string) (ms : Z).

(** [window.app] together with the services the code calls: what
    [getIdToken] resolves or rejects with, what [axios] answers to a
    request, and what Firestore holds. *)
Record App := {
  test : bool;
  functionsURL : string;
  app_user : User;
  app_location_name : string;
  locationNames : list string;
  getIdToken : exn + string;
  axios : Request → exn + value;
  appointments : string → exn + list Appt;
  users : string → exn + option User;
}.

(** A computation: the trace of its effects and how it ends, by a thrown
    exception (or rejected promise) or by a value. *)
Definition M (A : Type) : Type := list event * (exn + A).

Definition ret {A} (a : A) : M A := ([], inr a).
Definition throw {A} (e : exn) : M A := ([], inl e).
Definition emit (ev : event) : M () := ([ev], inr ()).
Definition lift {A} (r : exn + A) : M A := ([], r).

Definition bind {A B} (m : M A) (k : A → M B) : M B :=
  match m with
  | (t, inl e) => (t, inl e)
  | (t, inr a) => let '(t', r) := k a in (t ++ t', r)
  end.

Notation "x <~ m ;; k" := (bind m (λ x, k))
  (at level 100, m at next level, right associativity,
   format "'[v' x  <~  m  ;;  '/' k ']'").
Notation "m ;;; k" := (bind m (λ _, k))
  (at level 100, right associativity).

Definition trace {A} (m : M A) : list event := m.1.
Definition outcome {A} (m : M A) : exn + A := m.2.

(** The writes to Firestore in a trace. *)
Definition is_write (ev : event) : bool :=
  match ev with
  | FsSet _ _ | FsUpdate _ _ | FsDelete _ => true
  | _ => false
  end.

(** The HTTP requests in a trace. *)
Definition requests (t : list event) : list Request :=
  omap (λ ev, match ev with Http r => Some r | _ => None end) t.

(** ** Locations *)

(** The fields of a location document that the Data layer reads. Each of
    them may be missing: the data of a document that does not exist has
    none. The open hours map a day to the windows of that day, of which
    [open] and [close] are read. *)
Record Location := {
  loc_id : option string;
  loc_name : option string;
  hours : option (gmap string (list Timeslot));
}.

(** A snapshot of a location document: [doc.id] and [doc.data()]. *)
Record Snapshot := {
  doc_id : string;
  doc_data : Location;
}.

(** ** Plain data *)

Unset Elimination Schemes.

(** The values that a document or a request is made of. [JDate] stands
    for an object with a [getTime] method; the entries of an object are
    its own properties in the order of [Object.entries]. *)
Inductive json :=
| JString (s : string)
| JNumber (n : N)
| JBool (b : bool)
| JUndefined
| JNull
| JDate
| JArray (items : list json)
| JObject (entries : list (string * json)).

Set Elimination Schemes.

(** ** [Data] *)

Module Data.

(** *** [Data.concatArr] *)

(** The body shared by the two [forEach] callbacks. *)
Definition concatArr_push (result : list string) (item : string)
  : list string :=
  if bool_decide (JS.Array_indexOf result item < 0)
     && negb (bool_decide (item = ""))
  then result ++ [item]
  else result.

Definition concatArr (arrA arrB : list string) : list string :=
  let result := [] in
  let result := foldl concatArr_push result arrA in
  let result := foldl concatArr_push result arrB in
  result.

(** *** [Data.prototype.initTimes] *)

(** [minString]: an extra zero for values below 10. *)
Definition minString (min : N) : string :=
  if bool_decide (min < 10)%N then "0" +:+ JS.toString min
  else JS.toString min.

(** [for (var i = lo; i < lo + n; i++)] as the list of the values of
    [i]. *)
Definition range (lo : N) (n : nat) : list N :=
  (λ i, lo + N.of_nat i)%N <$> seq 0 n.

(** The body of the [forEach] over the suffixes: the twelve-o'clock loop,
    then the loop over the hours 1 to 11. *)
Definition initTimes_suffix (timeStrings : list string) (suffix : string)
  : list string :=
  let timeStrings :=
    foldl (λ ts min, ts ++ ["12:" +:+ minString min +:+ " " +:+ suffix])
          timeStrings (range 0 60) in
  foldl (λ ts hour,
           foldl (λ ts min,
                    ts ++ [JS.toString hour +:+ ":" +:+ minString min
                             +:+ " " +:+ suffix])
                 ts (range 0 60))
        timeStrings (range 1 11).

Definition initTimes : list string :=
  foldl initTimes_suffix [] ["AM"; "PM"].

(** *** [Data.updateUserLocation] *)

Definition set_location (u : User) (loc : option string)
    (locs : list string) : User :=
  {| uid := uid u; id := id u; email := email u; name := name u;
     type := type u; availability := availability u;
     location := loc; locations := locs |}.

(** [Object.keys] of a missing availability throws. The keys come in the
    order in which the map enumerates them, which stands for the
    insertion order of the JS object. *)
Definition updateUserLocation (app : App) (u : User) : M User :=
  match availability u with
  | None => throw (TypeError "Cannot convert undefined or null to object")
  | Some avail =>
      let locs := (map_to_list avail).*1 in
      let loc :=
        foldl (λ _ loc,
                 Some (if bool_decide
                            (0 ≤ JS.Array_indexOf (locationNames app) loc)
                       then loc else app_location_name app))
              (location u) locs in
      ret (set_location u loc (concatArr locs [app_location_name app]))
  end.

(** *** [Data.updateUserAvailability] *)

Definition set_availability (u : User) (a : option Availability) : User :=
  {| uid := uid u; id := id u; email := email u; name := name u;
     type := type u; availability := a;
     location := location u; locations := locations u |}.

(** [bookedAvailability[loc][day]], once both levels exist. *)
Definition windows (ba : Availability) (loc day : string)
  : list Timeslot :=
  default [] (ba !! loc ≫= λ days, days !! day).

(** [if (!bookedAvailability[loc]) bookedAvailability[loc] = {}]. *)
Definition init_location (ba : Availability) (loc : string)
  : Availability :=
  match ba !! loc with
  | None => <[loc := ∅]> ba
  | Some _ => ba
  end.

(** [if (!bookedAvailability[loc][day]) bookedAvailability[loc][day] = []].
    The location is there when this runs. *)
Definition init_day (ba : Availability) (loc day : string)
  : Availability :=
  match ba !! loc with
  | Some days =>
      match days !! day with
      | None => <[loc := <[day := []]> days]> ba
      | Some _ => ba
      end
  | None => ba
  end.

(** [bookedAvailability[loc][day].push(t)]. *)
Definition push_window (ba : Availability) (loc day : string)
    (t : Timeslot) : Availability :=
  match ba !! loc with
  | Some days => <[loc := <[day := windows ba loc day ++ [t]]> days]> ba
  | None => ba
  end.

(** The callback of [appts.forEach]. *)
Definition book (ba : Availability) (appt : Appt) : Availability :=
  let ba := init_location ba (location_name appt) in
  let ba := init_day ba (location_name appt) (time_day appt) in
  if bool_decide
       (0 ≤ JS.findIndex
              (λ t, open t = time_from appt ∧ close t = time_to appt)
              (windows ba (location_name appt) (time_day appt)))
  then ba
  else push_window ba (location_name appt) (time_day appt)
         {| open := time_from appt; close := time_to appt;
            booked := Some true |}.

(** The three nested callbacks over the user's existing availability:
    timeslots, in days, in locations. *)
Definition keep_timeslot (loc day : string) (ba : Availability)
    (timeslot : Timeslot) : Availability :=
  if bool_decide
       (JS.findIndex
          (λ t, open t = open timeslot ∧ close t = close timeslot)
          (windows ba loc day) < 0)
  then push_window ba loc day
         {| open := open timeslot; close := close timeslot;
            booked := Some false |}
  else ba.

Definition keep_day (loc : string) (ba : Availability)
    (day : string * list Timeslot) : Availability :=
  let ba := init_day ba loc day.1 in
  foldl (keep_timeslot loc day.1) ba day.2.

Definition keep_location (ba : Availability)
    (loc : string * gmap string (list Timeslot)) : Availability :=
  let ba := init_location ba loc.1 in
  foldl (keep_day loc.1) ba (map_to_list loc.2).

(** The availability built from the fetched appointments and the
    existing availability. *)
Definition bookedAvailability (appts : list Appt)
    (existing : option Availability) : Availability :=
  let ba := foldl book ∅ appts in
  foldl keep_location ba (map_to_list (default ∅ existing)).

(** The function mutates [user]; the embedding returns the user as the
    call leaves it. *)
Definition updateUserAvailability (app : App) (u : User) : M User :=
  if JS.falsy (uid u) then
    emit (ConsoleWarn ("[WARNING] Could not update " +:+ JS.shown (name u)
                         +:+ "'s availability without a valid uID.")) ;;;
    ret u
  else
    emit (FsGet ["users"; JS.the (uid u); "appointments"]) ;;;
    appts <~ lift (appointments app (JS.the (uid u))) ;;
    ret (set_availability u
           (Some (bookedAvailability appts (availability u)))).

(** *** [Data.getUser], [Data.deleteUser] *)

Definition getUser (app : App) (id : option string) : M User :=
  if JS.falsy id then
    throw (Error "Could not get user data b/c id was undefined.")
  else if bool_decide (0 ≤ JS.indexOf (JS.the id) "@") then
    throw (Error "Using an email as a user ID is deprecated.")
  else
    emit (FsGet ["users"; JS.the id]) ;;;
    ref <~ lift (users app (JS.the id)) ;;
    match ref with
    | Some doc => ret doc
    | None => throw (Error ("User (" +:+ JS.the id +:+ ") did not exist."))
    end.

Definition deleteUser (app : App) (id : option string) : M () :=
  if JS.falsy id then
    throw (Error "Could not delete user b/c id was undefined.")
  else if bool_decide (0 ≤ JS.indexOf (JS.the id) "@") then
    throw (Error "Using an email as a user ID is deprecated.")
  else
    emit (FsDelete ["users"; JS.the id]).

(** *** [Data.post] *)

(** [promise.catch(handler)] where the handler logs and rethrows. *)
Definition catch_log {A} (m : M A) (line : string) : M A :=
  match m with
  | (t, inl err) => (t ++ [ConsoleError line], inl err)
  | (t, inr a) => (t, inr a)
  end.

(** The [then] callback. *)
Definition post_then (res_data : value) : M value :=
  match res_data with
  | VString s =>
      if bool_decide (0 < JS.indexOf s "ERROR") then
        throw (Error (JS.replace s "[ERROR] " ""))
      else ret res_data
  | _ => ret res_data
  end.

Definition post_request (app : App) (action token : string)
    (data : value) : Request :=
  {| method := "post";
     url := functionsURL app +:+ "data";
     params := [("test", VBool (test app));
                ("user", value_of_option (uid (app_user app)));
                ("action", VString action);
                ("token", VString token)];
     data := data |}.

(** The token is awaited while the argument of [axios] is built, before
    the promise chain exists. *)
Definition post (app : App) (action : string) (data : value) : M value :=
  token <~ lift (getIdToken app) ;;
  catch_log
    (emit (Http (post_request app action token data)) ;;;
     res_data <~ lift (axios app (post_request app action token data)) ;;
     post_then res_data)
    ("[ERROR] During " +:+ action +:+ " REST API call.").

(** *** [Data.updateUser], [Data.createUser] *)

Definition updateUser (app : App) (user : option User) : M () :=
  match user with
  | None => throw (TypeError "Cannot read property 'uid' of undefined")
  | Some u =>
      u <~ updateUserAvailability app u ;;
      u <~ updateUserLocation app u ;;
      if JS.falsy (id u) && JS.falsy (email u) && JS.falsy (uid u) then
        throw (Error "Could not update user b/c id was undefined.")
      else if JS.truthy (uid u) then
        emit (FsUpdate ["users"; JS.the (uid u)] u)
      else
        throw (Error "Using an email as a user ID is deprecated.")
  end.

Definition createUser (app : App) (user : option User) : M value :=
  match user with
  | None => throw (Error "Cannot create an undefined user.")
  | Some u =>
      if JS.falsy (id u) && JS.falsy (uid u) && JS.falsy (email u) then
        throw (Error "Could not create user b/c id was undefined.")
      else if JS.truthy (uid u) then
        emit (FsSet ["users"; JS.the (uid u)] u) ;;; ret VUndefined
      else if bool_decide (type (app_user app) = Some "Supervisor")
              && bool_decide (id (app_user app) ≠ id u) then
        post app "createProxyUser" (VObject [("user", VUser u)])
      else
        emit (ConsoleWarn
                "[WARNING] Using an email as a user ID is deprecated.") ;;;
        emit (FsSet ["usersByEmail"; JS.the (JS.or_else (id u) (email u))]
                u) ;;;
        ret VUndefined
  end.

(** *** [Data.combineMaps], [Data.cloneMap] *)

(** [for (var i in map) result[i] = map[i]]. *)
Definition assign {V} (result map : gmap string V) : gmap string V :=
  foldl (λ result e, <[e.1 := e.2]> result) result (map_to_list map).

Definition combineMaps {V} (mapA mapB : gmap string V) : gmap string V :=
  let result := ∅ in
  let result := assign result mapA in
  let result := assign result mapB in
  result.

Definition cloneMap {V} (map : gmap string V) : gmap string V :=
  let clone := ∅ in
  assign clone map.

(** *** [Data.prototype.getLocations], [Data.prototype.initLocations] *)

(** [Data.combineMaps(doc.data(), {id: doc.id})] on the fields of a
    location: the [id] is the document's, whatever the data says. *)
Definition locationData (doc : Snapshot) : Location :=
  {| loc_id := Some (doc_id doc);
     loc_name := loc_name (doc_data doc);
     hours := hours (doc_data doc) |}.

(** The snapshot callback that [getLocations] hands to [Data.listen]:
    [this.locations] after the callback, and [this.location]. *)
Definition getLocations_next (locations : list Location) (doc : Snapshot)
  : list Location * option Location :=
  let index := JS.findIndex (λ l, loc_id l = Some (doc_id doc)) locations in
  let locations :=
    if bool_decide (index < 0) then locations ++ [locationData doc]
    else <[Z.to_nat index := locationData doc]> locations in
  (locations, locations !! 0%nat).

(** [this.locations] after the callback has run on each of the snapshots
    in turn, from the empty array that [initLocations] sets. *)
Definition getLocations (docs : list Snapshot) : list Location :=
  foldl (λ locations doc, (getLocations_next locations doc).1) [] docs.

(** The look-up tables that [initLocations] fills. A property key that is
    [undefined] reads "undefined". *)
Record Tables := {
  locationsByName : gmap string (option string);
  locationsByID : gmap string (option string);
  locationDataByName : gmap string Location;
  locationDataByID : gmap string Location;
  names : list (option string);
  ids : list (option string);
}.

(** The callback of [this.locations.forEach]; [names] is
    [this.locationNames] and [ids] is [this.locationIDs]. *)
Definition initLocations_each (t : Tables) (location : Location) : Tables :=
  {| locationsByName :=
       <[JS.shown (loc_name location) := loc_id location]>
         (locationsByName t);
     locationDataByName :=
       <[JS.shown (loc_name location) := location]> (locationDataByName t);
     locationsByID :=
       <[JS.shown (loc_id location) := loc_name location]>
         (locationsByID t);
     locationDataByID :=
       <[JS.shown (loc_id location) := location]> (locationDataByID t);
     names := names t ++ [loc_name location];
     ids := ids t ++ [loc_id location] |}.

(** The part of [initLocations] after the locations are fetched. *)
Definition initLocations (locations : list Location) : Tables :=
  foldl initLocations_each
    {| locationsByName := ∅; locationsByID := ∅;
       locationDataByName := ∅; locationDataByID := ∅;
       names := []; ids := [] |}
    locations.

(** *** [Data.prototype.initPeriods] *)

(** [if (times.indexOf(time) < 0) times.push(time)]. *)
Definition add_time (times : list string) (time : string) : list string :=
  if bool_decide (JS.Array_indexOf times time < 0) then times ++ [time]
  else times.

(** The callback of [a.forEach], for the day [d]. *)
Definition initPeriods_slot (d : string) (times : gmap string (list string))
    (s : Timeslot) : gmap string (list string) :=
  let times :=
    match times !! d with
    | None => <[d := []]> times
    | Some _ => times
    end in
  let times := alter (λ ts, add_time ts (open s)) d times in
  let times := alter (λ ts, add_time ts (close s)) d times in
  times.

(** The callback of [Object.entries(location.hours).forEach]. *)
Definition initPeriods_day (times : gmap string (list string))
    (e : string * list Timeslot) : gmap string (list string) :=
  foldl (initPeriods_slot e.1) times e.2.

(** The first loop, over [this.locations]. [Object.entries] throws on a
    location without [hours]. *)
Fixpoint initPeriods_times (times : gmap string (list string))
    (locations : list Location) : exn + gmap string (list string) :=
  match locations with
  | [] => inr times
  | location :: locations =>
      match hours location with
      | None =>
          inl (TypeError "Cannot convert undefined or null to object")
      | Some h =>
          initPeriods_times (foldl initPeriods_day times (map_to_list h))
            locations
      end
  end.

(** The callback of [Object.entries(times).forEach]. *)
Definition initPeriods_entry (timeStrings : list string)
    (periods : gmap string (list string)) (e : string * list string)
  : gmap string (list string) :=
  let periods :=
    match periods !! e.1 with
    | None => <[e.1 := []]> periods
    | Some _ => periods
    end in
  foldl (λ periods time,
           if bool_decide (JS.Array_indexOf timeStrings time < 0)
           then alter (λ p, p ++ [time]) e.1 periods
           else periods)
        periods e.2.

(** [this.periods] after the call, or what the call throws. *)
Definition initPeriods (locations : list Location)
    (timeStrings : list string) : exn + gmap string (list string) :=
  match initPeriods_times ∅ locations with
  | inl e => inl e
  | inr times =>
      inr (foldl (initPeriods_entry timeStrings) ∅ (map_to_list times))
  end.

(** *** [Data.prototype.initHourlyCharges] *)

(** [Data.prototype.payments]: one object, shared by every [Data]. *)
Record PaymentsData := {
  hourlyChargeStrings : list string;
  hourlyChargesMap : gmap string N;
}.

(** [for (var i = 5; i <= 200; i += 5)] as the list of the values of
    [i]. *)
Definition charges : list N := (λ k, 5 * N.of_nat k)%N <$> seq 1 40.

Definition chargeString (i : N) : string :=
  "$" +:+ JS.toString i +:+ ".00".

Definition initHourlyCharges (payments : PaymentsData) : PaymentsData :=
  foldl (λ payments i,
           {| hourlyChargeStrings :=
                hourlyChargeStrings payments ++ [chargeString i];
              hourlyChargesMap :=
                <[chargeString i := i]> (hourlyChargesMap payments) |})
        payments charges.

(** *** [Data.getOther] *)

(** The first argument of [getOther]: a user, or (in old documents) the
    array of the attendees. *)
Inductive attendee :=
| OneUser (u : User)
| Attendees (us : list User).

(** [undefined] is [None]. A user has no [length]; an array has no
    [email]. *)
Definition getOther (app : App) (notThisUser : attendee)
    (attendees : list User) : exn + option User :=
  let second_branch (e : option string) :=
    match attendees with
    | [] => inl (TypeError "Cannot read property 'email' of undefined")
    | first :: _ =>
        if bool_decide (email first = e) then inr (attendees !! 1%nat)
        else inr (Some first)
    end in
  match notThisUser with
  | Attendees (first :: rest) =>
      if bool_decide (email first = email (app_user app))
      then inr ((first :: rest) !! 1%nat)
      else inr (Some first)
  | Attendees [] => second_branch None
  | OneUser u => second_branch (email u)
  end.

(** *** [Data.trimObject] *)

Section trimObject.

(** [String.prototype.trim]: the embedding does not fix the characters
    that count as white space. *)
Variable trim : string → string.

(** The [switch] on [typeof entry[1]]; [trimObject] is the function
    itself, for the recursive call. [typeof null] is 'object'. *)
Definition trim_entry (trimObject : json → exn + json) (v : json)
  : exn + json :=
  match v with
  | JString s => inr (JString (trim s))
  | JNull => inl (TypeError "Cannot read property 'getTime' of null")
  | JDate => inr JDate
  | JArray _ | JObject _ => trimObject v
  | _ => inr v
  end.

(** [result[key] = v], then the rest of the loop; what throws first
    ends the loop. *)
Definition set_entry (key : string) (v : exn + json)
    (rest : exn + list (string * json)) : exn + list (string * json) :=
  match v with
  | inl e => inl e
  | inr v =>
      match rest with
      | inl e => inl e
      | inr result => inr ((key, v) :: result)
      end
  end.

Definition object (entries : exn + list (string * json)) : exn + json :=
  match entries with
  | inl e => inl e
  | inr result => inr (JObject result)
  end.

(** The [forEach] over the entries of an object. *)
Fixpoint each_entry (trimObject : json → exn + json)
    (entries : list (string * json)) : exn + list (string * json) :=
  match entries with
  | [] => inr []
  | entry :: entries =>
      set_entry entry.1 (trim_entry trimObject entry.2)
        (each_entry trimObject entries)
  end.

(** The [forEach] over the entries of an array, whose keys are the
    indices from [i] on. *)
Fixpoint each_item (trimObject : json → exn + json) (i : nat)
    (items : list json) : exn + list (string * json) :=
  match items with
  | [] => inr []
  | item :: items =>
      set_entry (JS.toString (N.of_nat i)) (trim_entry trimObject item)
        (each_item trimObject (S i) items)
  end.

(** The characters of a string, which are its entries. *)
Fixpoint chars (s : string) : list string :=
  match s with
  | EmptyString => []
  | String c s => String c "" :: chars s
  end.

Fixpoint trimObject (ob : json) : exn + json :=
  match ob with
  | JObject entries => object (each_entry trimObject entries)
  | JArray items => object (each_item trimObject 0 items)
  | JNull | JUndefined =>
      inl (TypeError "Cannot convert undefined or null to object")
  | JString s =>
      inr (JObject
             (imap (λ i c, (JS.toString (N.of_nat i), JString (trim c)))
                (chars s)))
  | _ => inr (JObject [])
  end.

End trimObject.

(** *** The wrappers of the REST actions *)

Definition requestPayout (app : App) : M value :=
  post app "requestPayout" VUndefined.

Definition requestPaymentFor (app : App) (appt id : value) : M value :=
  post app "requestPaymentFor" (VObject [("appt", appt); ("id", id)]).

Definition approvePayment (app : App) (approvedPayment id : value)
  : M value :=
  post app "approvePayment"
    (VObject [("approvedPayment", approvedPayment); ("id", id)]).

Definition denyPayment (app : App) (deniedPayment id : value) : M value :=
  post app "denyPayment"
    (VObject [("deniedPayment", deniedPayment); ("id", id)]).

Definition rejectClockIn (app : App) (clockIn id : value) : M value :=
  post app "rejectClockIn" (VObject [("clockIn", clockIn); ("id", id)]).

Definition approveClockIn (app : App) (clockIn id : value) : M value :=
  post app "approveClockIn" (VObject [("clockIn", clockIn); ("id", id)]).

Definition rejectClockOut (app : App) (clockOut id : value) : M value :=
  post app "rejectClockOut" (VObject [("clockOut", clockOut); ("id", id)]).

Definition approveClockOut (app : App) (clockOut id : value) : M value :=
  post app "approveClockOut"
    (VObject [("clockOut", clockOut); ("id", id)]).

Definition instantClockIn (app : App) (appt id : value) : M value :=
  post app "instantClockIn" (VObject [("appt", appt); ("id", id)]).

Definition instantClockOut (app : App) (appt id : value) : M value :=
  post app "instantClockOut" (VObject [("appt", appt); ("id", id)]).

Definition clockIn (app : App) (appt id proof : value) : M value :=
  post app "clockIn"
    (VObject [("appt", appt); ("id", id); ("proof", proof)]).

Definition clockOut (app : App) (appt id proof : value) : M value :=
  post app "clockOut"
    (VObject [("appt", appt); ("id", id); ("proof", proof)]).

Definition approveRequest (app : App) (request id : value) : M value :=
  post app "approveRequest" (VObject [("request", request); ("id", id)]).

Definition modifyAppt (app : App) (appt id : value) : M value :=
  post app "modifyAppt" (VObject [("appt", appt); ("id", id)]).

Definition newPastAppt (app : App) (appt : value) : M value :=
  post app "newPastAppt" (VObject [("appt", appt)]).

Definition modifyPastAppt (app : App) (appt id : value) : M value :=
  post app "modifyPastAppt" (VObject [("appt", appt); ("id", id)]).

Definition deletePastAppt (app : App) (appt id : value) : M value :=
  post app "deletePastAppt" (VObject [("appt", appt); ("id", id)]).

Definition cancelAppt (app : App) (appt id : value) : M value :=
  post app "cancelAppt" (VObject [("appt", appt); ("id", id)]).

Definition rejectRequest (app : App) (request id : value) : M value :=
  post app "rejectRequest" (VObject [("request", request); ("id", id)]).

Definition cancelRequest (app : App) (request id : value) : M value :=
  post app "cancelRequest" (VObject [("request", request); ("id", id)]).

Definition modifyRequest (app : App) (request id : value) : M value :=
  post app "modifyRequest" (VObject [("request", request); ("id", id)]).

Definition newRequest (app : App) (request payment : value) : M value :=
  post app "newRequest"
    (VObject [("request", request); ("payment", payment)]).

Definition newTimeRequest (app : App) (request : value) : M value :=
  post app "newTimeRequest" (VObject [("request", request)]).

Definition rejectTimeRequest (app : App) (request id : value) : M value :=
  post app "rejectTimeRequest"
    (VObject [("request", request); ("id", id)]).

Definition modifyTimeRequest (app : App) (request id : value) : M value :=
  post app "modifyTimeRequest"
    (VObject [("request", request); ("id", id)]).

Definition approveTimeRequest (app : App) (request id : value)
  : M value :=
  post app "approveTimeRequest"
    (VObject [("request", request); ("id", id)]).

End Data.

(** ** [ViewApptDialog] *)

Module ViewApptDialog.

(** [new Number(s)] is an object; [x++] and [x = 0] leave a primitive
    number in the variable. The difference shows in [===], which never
    holds between an object and a primitive. *)
Inductive num :=
| Boxed (n : N)
| Prim (n : N).

Definition valueOf (x : num) : N :=
  match x with Boxed n | Prim n => n end.

(** [x++] *)
Definition incr (x : num) : num := Prim (valueOf x + 1).

(** [x === k] for a number literal [k]. *)
Definition strict_eq (x : num) (k : N) : bool :=
  match x with
  | Prim n => bool_decide (n = k)
  | Boxed _ => false
  end.

(** [f.split('.')[0]] *)
Definition before_dot (f : string) : option string :=
  JS.split f "."%char !! 0%nat.

(** The block that [update] runs on the value of one input, from the
    increment on: the carries, then the new value of the input. *)
Definition carry (hours minutes seconds milli : num) : string :=
  let milli := incr milli in
  let '(milli, seconds) :=
    if strict_eq milli 100 then (Prim 0, incr seconds)
    else (milli, seconds) in
  let '(seconds, minutes) :=
    if strict_eq seconds 60 then (Prim 0, incr minutes)
    else (seconds, minutes) in
  let '(minutes, hours) :=
    if strict_eq minutes 60 then (Prim 0, incr hours)
    else (minutes, hours) in
  JS.toString (valueOf hours) +:+ ":" +:+
  JS.toString (valueOf minutes) +:+ ":" +:+
  JS.toString (valueOf seconds) +:+ "." +:+
  JS.toString (valueOf milli).

(** The whole block. [None] is a thrown [TypeError] (a missing field) or
    a field that [JS.Number] does not cover. The [|| 0] after the first
    [currentMilli] never applies: an object is truthy. *)
Definition advance (display : string) : option string :=
  hours ← JS.split display ":"%char !! 0%nat ≫= JS.Number;
  minutes ← JS.split display ":"%char !! 1%nat ≫= JS.Number;
  seconds ← (JS.split display ":"%char !! 2%nat ≫= before_dot)
            ≫= JS.Number;
  milli ← JS.split display "."%char !! 1%nat ≫= JS.Number;
  Some (carry (Boxed hours) (Boxed minutes) (Boxed seconds) (Boxed milli)).

(** The values of [$('#Current input')] and [$('#Total input')]. *)
Record Inputs := {
  Current : string;
  Total : string;
}.

(** The source spells the block out twice, once for each input. *)
Definition update (inputs : Inputs) : option Inputs :=
  current ← advance (Current inputs);
  total ← advance (Total inputs);
  Some {| Current := current; Total := total |}.

End ViewApptDialog.

(** ** [Snackbar] *)

Module Snackbar.

(** The snackbar that [v] opens: the arguments given to
    [render.snackbar] and the two properties set on the component. *)
Record MDCSnackbar := {
  el : list value;
  labelText : string;
  timeoutMs : Z;
}.

(** The three closures of [view]. *)
Inductive task :=
| c
| r
| v (snackbar : MDCSnackbar).

Definition v_snackbar (message : string) (label action : option string)
    (showClose : value) (timeout : Z) : MDCSnackbar :=
  {| el :=
       if JS.falsy label || bool_decide (action = None) then [VBool true]
       else match showClose with
            | VBool _ =>
                [value_of_option label; value_of_option action; showClose]
            | _ =>
                [value_of_option label; value_of_option action; VBool true]
            end;
     labelText := message;
     timeoutMs := if JS.endsWith message "..." then -1 else timeout |}.

(** [view] run against a page where [opening] or [open_] snackbars may be
    present: the closures with the delay after which each runs (0 for a
    direct call). An omitted [timeout] takes the default of the
    parameter. *)
Definition view (opening open_ : bool) (message : string)
    (label action : option string) (showClose : value)
    (timeout : option Z) : list (Z * task) :=
  let timeout := default 5000 timeout in
  let v := v (v_snackbar message label action showClose timeout) in
  if opening then [(100, c); (200, r); (250, v)]
  else if open_ then [(0, c); (100, r); (150, v)]
  else [(0, v)].

(** The snackbars a run of [view] shows. *)
Definition shown (tasks : list (Z * task)) : list MDCSnackbar :=
  omap (λ t, match t.2 with v s => Some s | _ => None end) tasks.

End Snackbar.

(** ** [Payments] *)

Module Payments.

Definition accountURL_request (app : App) : Request :=
  {| method := "get";
     url := functionsURL app +:+ "/accountURL";
     params := [("id", value_of_option (id (app_user app)))];
     data := VUndefined |}.

(** [getAccountURL] of [initStripe], with the timers it sets run by the
    event loop: [answers n] is what the [n]-th request meets, a failure
    or the URL in [res.data.url]; [timers] bounds how many timers are
    followed. The result is the trace and [accountURL] if it was set. *)
Fixpoint getAccountURL (timers : nat) (app : App)
    (answers : nat → exn + string) (attempt : nat)
  : list event * option string :=
  match answers attempt with
  | inr url => ([Http (accountURL_request app)], Some url)
  | inl err =>
      let t := [Http (accountURL_request app);
                ConsoleError
                  "Error while fetching new Stripe Connect Account url:";
                SetTimeout "getAccountURL" 5000] in
      match timers with
      | O => (t, None)
      | S timers =>
          let '(t', url) := getAccountURL timers app answers (S attempt) in
          (t ++ t', url)
      end
  end.

End Payments.

(** ** The wrapper around Google Analytics *)

Module Analytics.

(** What the wrapper asks of Google Analytics. *)
Inductive call :=
| logEvent (eventName : string)
| setCurrentScreen (id : option string).

(** [this.analytics] is [undefined] when Analytics was not enabled;
    [enabled] says that it is there. A method returns what its call of
    Analytics returns, which is here the call itself. *)
Definition log (enabled : bool) (eventName : string) : M (option call) :=
  if negb enabled then
    emit (ConsoleWarn
            "[WARNING] Google Analytics for Firebase was not enabled.") ;;;
    ret None
  else ret (Some (logEvent eventName)).

Definition url (enabled : bool) (url : string) : M call :=
  let id := JS.split url "/"%char !! 2%nat in
  if enabled then ret (setCurrentScreen id)
  else throw (TypeError
                "Cannot read property 'setCurrentScreen' of undefined").

End Analytics.

(** ** The notions the statements are written with *)

Module Spec.

(** *** Strings *)

(** [pat] occurs in [s]; [s] begins with [pat]; [s] ends with [pat]. *)
Definition occurs (pat s : string) : Prop := ∃ p q, s = p +:+ pat +:+ q.
Definition begins (pat s : string) : Prop := ∃ q, s = pat +:+ q.
Definition ends (pat s : string) : Prop := ∃ p, s = p +:+ pat.

(** The error string of the REST layer, as the specification describes
    it: 'ERROR', or a string that begins with '[ERROR] '. *)
Definition sentinel (res : value) : Prop :=
  ∃ s, res = VString s ∧ (s = "ERROR" ∨ begins "[ERROR] " s).

(** *** Twelve-hour clock *)

Definition digit (d : nat) : string :=
  String (Ascii.ascii_of_nat (48 + d)) "".

Definition two_digits (m : nat) : string :=
  digit (m `div` 10) +:+ digit (m `mod` 10).

(** Minute [i] of the day on a twelve-hour clock: the hour reads 12 in
    the first hour of each half of the day, the minutes always take two
    digits, and the first 720 minutes are the AM ones. *)
Definition clock12 (i : nat) : string :=
  let hour := ((i `div` 60) `mod` 12)%nat in
  JS.toString (N.of_nat (if decide (hour = 0)%nat then 12 else hour))
    +:+ ":" +:+ two_digits (i `mod` 60)
    +:+ " " +:+ (if decide (i < 720)%nat then "AM" else "PM").

(** A check that no string occurs twice. *)
Fixpoint distinct (l : list string) : bool :=
  match l with
  | [] => true
  | x :: l => negb (existsb (String.eqb x) l) && distinct l
  end.

(** *** Timer displays *)

Definition is_digit (a : Ascii.ascii) : bool :=
  (48 <=? Ascii.nat_of_ascii a)%nat && (Ascii.nat_of_ascii a <=? 57)%nat.

Fixpoint all_digits (s : string) : bool :=
  match s with
  | EmptyString => true
  | String a s => is_digit a && all_digits s
  end.

(** The character [sep] does not occur in [s]. *)
Fixpoint lacks (sep : Ascii.ascii) (s : string) : bool :=
  match s with
  | EmptyString => true
  | String a s => negb (bool_decide (a = sep)) && lacks sep s
  end.

(** A non-empty string of decimal digits. *)
Definition digits (s : string) : Prop :=
  s ≠ "" ∧ all_digits s = true.

(** Hours, minutes, seconds and centiseconds. *)
Record Clock := {
  hh : N;
  mm : N;
  ss : N;
  cc : N;
}.

Definition centiseconds (k : Clock) : N :=
  (((hh k * 60 + mm k) * 60 + ss k) * 100 + cc k)%N.

(** [display] is a well-formed timer string 'H:M:S.CC' that reads as
    [k]. *)
Definition well_formed (display : string) (k : Clock) : Prop :=
  ∃ h m s c,
    display = h +:+ ":" +:+ m +:+ ":" +:+ s +:+ "." +:+ c ∧
    digits h ∧ digits m ∧ digits s ∧ digits c ∧
    JS.Number h = Some (hh k) ∧ JS.Number m = Some (mm k) ∧
    JS.Number s = Some (ss k) ∧ JS.Number c = Some (cc k) ∧
    (mm k < 60)%N ∧ (ss k < 60)%N ∧ (cc k < 100)%N.

(** *** Appointments and windows *)

(** The appointment [a] matches the window from [o] to [c] of [day] at
    [loc]. *)
Definition matches (a : Appt) (loc day o c : string) : Prop :=
  location_name a = loc ∧ time_day a = day ∧
  time_from a = o ∧ time_to a = c.

(** The windows of [day] at [loc] in an availability that may be
    missing. *)
Definition existing_windows (a : option Availability) (loc day : string)
  : list Timeslot :=
  default [] (a ≫= λ m, m !! loc ≫= λ days, days !! day).

(** The part of a window that identifies it within a day. *)
Definition key (t : Timeslot) : string * string := (open t, close t).

(** The day [day] at [loc] has a window from [o] to [c]. *)
Definition covered (ba : Availability) (loc day o c : string) : Prop :=
  ∃ t, t ∈ Data.windows ba loc day ∧ open t = o ∧ close t = c.

(** Every window of [ba] is also in [ba']. *)
Definition grows (ba ba' : Availability) : Prop :=
  ∀ loc day t,
    t ∈ Data.windows ba loc day → t ∈ Data.windows ba' loc day.

(** Every window carries a [booked] flag, which is set exactly when an
    appointment matches the window, and no day lists a window twice. *)
Definition flagged (appts : list Appt) (ba : Availability) : Prop :=
  ∀ loc day,
    (∀ t, t ∈ Data.windows ba loc day →
       ∃ b, booked t = Some b ∧
            (b = true ↔
             ∃ a, a ∈ appts ∧ matches a loc day (open t) (close t))) ∧
    NoDup (key <$> Data.windows ba loc day).

(** Every appointment has its window. *)
Definition all_booked (appts : list Appt) (ba : Availability) : Prop :=
  ∀ a, a ∈ appts →
    covered ba (location_name a) (time_day a) (time_from a) (time_to a).

(** What the loops over the existing availability keep: the two
    properties, and the location being worked on. *)
Definition kept (appts : list Appt) (loc : option string)
    (ba : Availability) : Prop :=
  flagged appts ba ∧ all_booked appts ba ∧
  ∀ l, loc = Some l → is_Some (ba !! l).

(** *** Calls of the REST wrappers *)

(** A call of one of the wrappers that take arguments. *)
Inductive call :=
| requestPaymentFor (appt id : value)
| approvePayment (approvedPayment id : value)
| denyPayment (deniedPayment id : value)
| rejectClockIn (clockIn id : value)
| approveClockIn (clockIn id : value)
| rejectClockOut (clockOut id : value)
| approveClockOut (clockOut id : value)
| instantClockIn (appt id : value)
| instantClockOut (appt id : value)
| clockIn (appt id proof : value)
| clockOut (appt id proof : value)
| approveRequest (request id : value)
| modifyAppt (appt id : value)
| newPastAppt (appt : value)
| modifyPastAppt (appt id : value)
| deletePastAppt (appt id : value)
| cancelAppt (appt id : value)
| rejectRequest (request id : value)
| cancelRequest (request id : value)
| modifyRequest (request id : value)
| newRequest (request payment : value)
| newTimeRequest (request : value)
| rejectTimeRequest (request id : value)
| modifyTimeRequest (request id : value)
| approveTimeRequest (request id : value).

(** The call as the Data layer runs it. *)
Definition run (app : App) (k : call) : M value :=
  match k with
  | requestPaymentFor appt id => Data.requestPaymentFor app appt id
  | approvePayment p id => Data.approvePayment app p id
  | denyPayment p id => Data.denyPayment app p id
  | rejectClockIn x id => Data.rejectClockIn app x id
  | approveClockIn x id => Data.approveClockIn app x id
  | rejectClockOut x id => Data.rejectClockOut app x id
  | approveClockOut x id => Data.approveClockOut app x id
  | instantClockIn appt id => Data.instantClockIn app appt id
  | instantClockOut appt id => Data.instantClockOut app appt id
  | clockIn appt id proof => Data.clockIn app appt id proof
  | clockOut appt id proof => Data.clockOut app appt id proof
  | approveRequest x id => Data.approveRequest app x id
  | modifyAppt appt id => Data.modifyAppt app appt id
  | newPastAppt appt => Data.newPastAppt app appt
  | modifyPastAppt appt id => Data.modifyPastAppt app appt id
  | deletePastAppt appt id => Data.deletePastAppt app appt id
  | cancelAppt appt id => Data.cancelAppt app appt id
  | rejectRequest x id => Data.rejectRequest app x id
  | cancelRequest x id => Data.cancelRequest app x id
  | modifyRequest x id => Data.modifyRequest app x id
  | newRequest x payment => Data.newRequest app x payment
  | newTimeRequest x => Data.newTimeRequest app x
  | rejectTimeRequest x id => Data.rejectTimeRequest app x id
  | modifyTimeRequest x id => Data.modifyTimeRequest app x id
  | approveTimeRequest x id => Data.approveTimeRequest app x id
  end.

(** The name of the wrapper called. *)
Definition wrapper (k : call) : string :=
  match k with
  | requestPaymentFor _ _ => "requestPaymentFor"
  | approvePayment _ _ => "approvePayment"
  | denyPayment _ _ => "denyPayment"
  | rejectClockIn _ _ => "rejectClockIn"
  | approveClockIn _ _ => "approveClockIn"
  | rejectClockOut _ _ => "rejectClockOut"
  | approveClockOut _ _ => "approveClockOut"
  | instantClockIn _ _ => "instantClockIn"
  | instantClockOut _ _ => "instantClockOut"
  | clockIn _ _ _ => "clockIn"
  | clockOut _ _ _ => "clockOut"
  | approveRequest _ _ => "approveRequest"
  | modifyAppt _ _ => "modifyAppt"
  | newPastAppt _ => "newPastAppt"
  | modifyPastAppt _ _ => "modifyPastAppt"
  | deletePastAppt _ _ => "deletePastAppt"
  | cancelAppt _ _ => "cancelAppt"
  | rejectRequest _ _ => "rejectRequest"
  | cancelRequest _ _ => "cancelRequest"
  | modifyRequest _ _ => "modifyRequest"
  | newRequest _ _ => "newRequest"
  | newTimeRequest _ => "newTimeRequest"
  | rejectTimeRequest _ _ => "rejectTimeRequest"
  | modifyTimeRequest _ _ => "modifyTimeRequest"
  | approveTimeRequest _ _ => "approveTimeRequest"
  end.

(** The arguments of the call under the names of the wrapper's
    parameters. *)
Definition arguments (k : call) : list (string * value) :=
  match k with
  | requestPaymentFor appt id => [("appt", appt); ("id", id)]
  | approvePayment p id => [("approvedPayment", p); ("id", id)]
  | denyPayment p id => [("deniedPayment", p); ("id", id)]
  | rejectClockIn x id | approveClockIn x id => [("clockIn", x); ("id", id)]
  | rejectClockOut x id | approveClockOut x id =>
      [("clockOut", x); ("id", id)]
  | instantClockIn appt id | instantClockOut appt id
  | modifyAppt appt id | modifyPastAppt appt id
  | deletePastAppt appt id | cancelAppt appt id =>
      [("appt", appt); ("id", id)]
  | clockIn appt id proof | clockOut appt id proof =>
      [("appt", appt); ("id", id); ("proof", proof)]
  | newPastAppt appt => [("appt", appt)]
  | approveRequest x id | rejectRequest x id | cancelRequest x id
  | modifyRequest x id | rejectTimeRequest x id | modifyTimeRequest x id
  | approveTimeRequest x id => [("request", x); ("id", id)]
  | newRequest x payment => [("request", x); ("payment", payment)]
  | newTimeRequest x => [("request", x)]
  end.

(** The value of a query parameter of a request. *)
Definition param (r : Request) (key : string) : option value :=
  (λ p, p.2.2) <$> list_find (λ p, p.1 = key) (params r).

(** The timers set in a trace. *)
Definition timers (t : list event) : list Z :=
  omap (λ ev, match ev with SetTimeout _ ms => Some ms | _ => None end) t.

(** The first answer is a network error, every later one the URL. *)
Definition fails_once (n : nat) : exn + string :=
  match n with
  | O => inl (Rejected "Network Error")
  | S _ => inr "https://connect.stripe.test/account"
  end.

(** *** Sample objects *)

Definition sample_user (uid id email : option string) : User :=
  {| uid := uid; id := id; email := email; name := Some "Ada";
     type := Some "Tutor"; availability := None;
     location := None; locations := [] |}.

Definition sample_appt : Appt :=
  {| location_name := "Gunn Academic Center"; time_day := "Monday";
     time_from := "2:45 PM"; time_to := "3:45 PM" |}.

Definition sample_availability : Availability :=
  {[ "Gunn Academic Center" :=
       {[ "Monday" :=
            [ {| open := "2:45 PM"; close := "3:45 PM"; booked := None |};
              {| open := "A Period"; close := "A Period";
                 booked := Some true |} ] ]} ]}.

(** A tutor with a uid, a booked window and a free one. *)
Definition sample_tutor : User :=
  {| uid := Some "u1"; id := Some "u1"; email := Some "ada@test";
     name := Some "Ada"; type := Some "Tutor";
     availability := Some sample_availability;
     location := None; locations := [] |}.

(** An app whose REST endpoint answers every request with [answer]. *)
Definition sample_app (answer : exn + value) : App :=
  {| test := false;
     functionsURL := "https://functions.test/";
     app_user := sample_user (Some "u1") (Some "u1") (Some "ada@test");
     app_location_name := "Gunn Academic Center";
     locationNames := ["Gunn Academic Center"];
     getIdToken := inr "token";
     axios := λ _, answer;
     appointments := λ _, inr [sample_appt];
     users := λ _, inr None |}.

(** *** Further notions *)

(** The lines written with [console.error] in a trace. *)
Definition console_errors (t : list event) : list string :=
  omap (λ ev, match ev with ConsoleError line => Some line | _ => None end) t.

(** The Firestore accesses in a trace. *)
Definition is_firestore (ev : event) : bool :=
  match ev with
  | FsGet _ | FsSet _ _ | FsUpdate _ _ | FsDelete _ => true
  | _ => false
  end.

(** [n] firings of the interval that [clockIn] sets on [update]. *)
Fixpoint ticks (n : nat) (inputs : ViewApptDialog.Inputs)
  : option ViewApptDialog.Inputs :=
  match n with
  | O => Some inputs
  | S n => ViewApptDialog.update inputs ≫= ticks n
  end.

(** Every request fails. *)
Definition always_fails (n : nat) : exn + string :=
  inl (Rejected "Network Error").

(** The sample app when the token cannot be fetched. *)
Definition signed_out_app : App :=
  {| test := false;
     functionsURL := "https://functions.test/";
     app_user := sample_user (Some "u1") (Some "u1") (Some "ada@test");
     app_location_name := "Gunn Academic Center";
     locationNames := ["Gunn Academic Center"];
     getIdToken := inl (Rejected "auth/network-request-failed");
     axios := λ _, inr (VString "SUCCESS");
     appointments := λ _, inl (Rejected "unavailable");
     users := λ _, inr None |}.


(** Every window of [ba] satisfies [Q], given its location and day. *)
Definition within (Q : string → string → Timeslot → Prop)
    (ba : Availability) : Prop :=
  ∀ loc day t, t ∈ Data.windows ba loc day → Q loc day t.

(** Where a window comes from: booked by an appointment that matches it,
    or free and listed in the availability the user had. *)
Definition origin (appts : list Appt) (existing : option Availability)
    (loc day : string) (t : Timeslot) : Prop :=
  (booked t = Some true ∧
   ∃ a, a ∈ appts ∧ matches a loc day (open t) (close t)) ∨
  (booked t = Some false ∧
   ∃ s, s ∈ existing_windows existing loc day ∧
        open s = open t ∧ close s = close t).

(** *** Locations and their open hours *)

(** The windows that the locations list for [day], in the order in which
    [initPeriods] goes through them. *)
Definition slots (locations : list Location) (day : string)
  : list Timeslot :=
  locations ≫= λ l, default [] (hours l ≫= λ h, h !! day).

(** Some location lists the window [s] for [day]. *)
Definition open_at (locations : list Location) (day : string)
    (s : Timeslot) : Prop :=
  ∃ l h a, l ∈ locations ∧ hours l = Some h ∧ h !! day = Some a ∧ s ∈ a.

(** What one window does to the times of its day, which may not be there
    yet. *)
Definition slot_times (o : option (list string)) (s : Timeslot)
  : option (list string) :=
  Some (Data.add_time (Data.add_time (default [] o) (open s)) (close s)).

(** The times of a window. *)
Definition ends_of (s : Timeslot) : list string := [open s; close s].

(** [doc] is the last of the snapshots [docs] of its document. *)
Definition latest (docs : list Snapshot) (doc : Snapshot) : Prop :=
  ∃ before after,
    docs = before ++ doc :: after ∧
    ∀ d, d ∈ after → doc_id d ≠ doc_id doc.

(** Sample locations. *)
Definition sample_location (i n : string) : Location :=
  {| loc_id := Some i; loc_name := Some n;
     hours := Some {[ "Monday" :=
                        [ {| open := "A Period"; close := "B Period";
                             booked := None |} ] ]} |}.

(** *** Plain data *)

(** A [null] sits in [v], at any depth of its objects and arrays. *)
Fixpoint nulls (v : json) : bool :=
  match v with
  | JNull => true
  | JArray items => existsb nulls items
  | JObject entries => existsb (λ e, nulls e.2) entries
  | _ => false
  end.

(** An array sits in [v], at any depth of its objects. *)
Fixpoint arrays (v : json) : bool :=
  match v with
  | JArray _ => true
  | JObject entries => existsb (λ e, arrays e.2) entries
  | _ => false
  end.

(** The keys of an object, or the indices of an array. *)
Definition keys (v : json) : list string :=
  match v with
  | JObject entries => entries.*1
  | JArray items => (λ j, JS.toString (N.of_nat j)) <$> seq 0 (length items)
  | _ => []
  end.

(** [trim] for strings of ASCII characters: tab, line feed, vertical
    tab, form feed, carriage return and space are white space. *)
Definition is_space (a : Ascii.ascii) : bool :=
  let n := Ascii.nat_of_ascii a in
  bool_decide (9 ≤ n ≤ 13)%nat || bool_decide (n = 32%nat).

Fixpoint trim_start (s : string) : string :=
  match s with
  | EmptyString => ""
  | String a s' => if is_space a then trim_start s' else s
  end.

Fixpoint trim_end (s : string) : string :=
  match s with
  | EmptyString => ""
  | String a s' =>
      match trim_end s' with
      | EmptyString => if is_space a then "" else String a ""
      | t => String a t
      end
  end.

Definition trim_ascii (s : string) : string := trim_end (trim_start s).

(** A request with spaces around its strings. *)
Definition sample_request : json :=
  JObject [("subject", JString "  Algebra 1 ");
           ("time", JObject [("day", JString "Monday "); ("when", JDate)]);
           ("attendees", JArray [JString " ada@test"; JString "bob@test"]);
           ("amount", JNumber 25)].
End Spec.

(** ** Facts about strings *)

(** In the proofs, [simpl] may unfold the concatenation of strings. *)
Local Arguments String.append !_ _ / : simpl nomatch.

Section string_facts.

Implicit Types s p q pat : string.

Lemma append_nil_r s : s +:+ "" = s.
Proof. induction s; simpl; congruence. Qed.

Lemma append_assoc s p q : (s +:+ p) +:+ q = s +:+ (p +:+ q).
Proof. induction s; simpl; congruence. Qed.

Lemma length_append s p :
  String.length (s +:+ p) = (String.length s + String.length p)%nat.
Proof. induction s; simpl; congruence. Qed.

Lemma substring_0_all s : String.substring 0 (String.length s) s = s.
Proof. induction s; simpl; congruence. Qed.

Lemma substring_0_append s q :
  String.substring 0 (String.length s) (s +:+ q) = s.
Proof.
  induction s; simpl; [by destruct q|congruence].
Qed.

(** The substring right after a prefix. *)
Lemma substring_append p s n :
  String.substring (String.length p) n (p +:+ s) = String.substring 0 n s.
Proof. induction p; simpl; done. Qed.

Lemma substring_occurrence p pat q :
  String.substring (String.length p) (String.length pat) (p +:+ pat +:+ q)
  = pat.
Proof. by rewrite substring_append, substring_0_append. Qed.

(** A string splits around any of its substrings. *)
Lemma substring_split s : ∀ m k,
  (m + k ≤ String.length s)%nat →
  s = String.substring 0 m s +:+ String.substring m k s
        +:+ String.substring (m + k) (String.length s - (m + k)) s.
Proof.
  induction s as [|a s IH]; intros m k Hle; simpl in *.
  - assert (m = 0%nat) as -> by lia. assert (k = 0%nat) as -> by lia. done.
  - destruct m as [|m]; simpl.
    + destruct k as [|k]; simpl.
      * by rewrite substring_0_all.
      * f_equal. specialize (IH 0%nat k). simpl in IH.
        destruct s; simpl in *; apply IH; lia.
    + f_equal. apply IH. lia.
Qed.

Lemma substring_length_le s : ∀ m k,
  (String.length (String.substring m k s) ≤ k)%nat.
Proof.
  induction s as [|a s IH]; intros [|m] [|k]; simpl; try lia.
  - specialize (IH 0%nat k). lia.
  - apply IH.
  - apply IH.
Qed.

Lemma substring_beyond s : ∀ m k,
  (0 < k)%nat → (String.length s < m + k)%nat →
  (String.length (String.substring m k s) < k)%nat.
Proof.
  induction s as [|a s IH]; intros [|m] [|k]; simpl; try lia.
  - intros. specialize (IH 0%nat k).
    destruct k; [destruct s; simpl in *; lia|]. lia.
  - intros. apply (IH m (S k)); lia.
Qed.

Lemma substring_occurs s pat m :
  pat ≠ "" →
  String.substring m (String.length pat) s = pat →
  ∃ q, s = String.substring 0 m s +:+ pat +:+ q.
Proof.
  intros Hpat E.
  destruct (decide (m + String.length pat ≤ String.length s)%nat) as [H|H].
  - eexists. rewrite (substring_split s m (String.length pat) H) at 1.
    by rewrite E.
  - pose proof (substring_beyond s m (String.length pat)) as Hlt.
    rewrite E in Hlt. destruct pat; [done|]. simpl in *. lia.
Qed.

Lemma indexOf_none s pat :
  pat ≠ "" → JS.indexOf s pat = -1 ↔ ¬ Spec.occurs pat s.
Proof.
  intros Hpat. unfold JS.indexOf.
  destruct (String.index 0 pat s) as [m|] eqn:E.
  - split; [lia|]. intros Hno. destruct Hno.
    apply String.index_correct1 in E.
    apply substring_occurs in E as [q E]; [|done]. by eexists _, _.
  - split; [|done]. intros _ (p & q & ->).
    destruct (String.index_correct3 0 (String.length p) _ _ E);
      [done|lia|].
    apply substring_occurrence.
Qed.

Lemma indexOf_nonneg s pat :
  JS.indexOf s pat = -1 ∨ 0 ≤ JS.indexOf s pat.
Proof. unfold JS.indexOf. destruct (String.index _ _ _); lia. Qed.

Lemma indexOf_zero s pat :
  JS.indexOf s pat = 0 → Spec.begins pat s.
Proof.
  unfold JS.indexOf. destruct (String.index 0 pat s) as [m|] eqn:E; [|lia].
  intros ?. assert (m = 0%nat) as -> by lia.
  destruct (decide (pat = "")) as [->|Hpat]; [by exists s|].
  apply String.index_correct1, substring_occurs in E as [q E]; [|done].
  exists q. by destruct s.
Qed.

Lemma indexOf_begins s pat :
  Spec.begins pat s → JS.indexOf s pat = 0.
Proof.
  intros [q ->]. unfold JS.indexOf.
  destruct (String.index 0 pat (pat +:+ q)) as [m|] eqn:E.
  - destruct m as [|m]; [done|].
    destruct (String.index_correct2 _ _ _ _ E 0%nat); try lia.
    apply substring_0_append.
  - destruct (decide (pat = "")) as [->|Hne].
    + by destruct q.
    + destruct (String.index_correct3 0 0%nat _ _ E); try done.
      apply substring_0_append.
Qed.

(** The first occurrence of [pat] is past the first character exactly
    when [pat] occurs in [s] and [s] does not begin with it. *)
Lemma indexOf_pos s pat :
  pat ≠ "" → 0 < JS.indexOf s pat ↔ Spec.occurs pat s ∧ ¬ Spec.begins pat s.
Proof.
  intros Hpat. split.
  - intros Hpos. split.
    + unfold JS.indexOf in Hpos.
      destruct (String.index 0 pat s) as [m|] eqn:E; [|lia].
      apply String.index_correct1, substring_occurs in E as [q E];
        [|done].
      by eexists _, _.
    + intros Hb%indexOf_begins. lia.
  - intros [Hocc Hnb].
    destruct (indexOf_nonneg s pat) as [E|E].
    + by apply indexOf_none in E.
    + destruct (decide (JS.indexOf s pat = 0)) as [E0|]; [|lia].
      by apply indexOf_zero in E0.
Qed.

Lemma substring_none s : ∀ m, String.substring m 0 s = "".
Proof. induction s as [|a s IH]; intros [|m]; simpl; auto. Qed.

Lemma endsWith_spec s pat : JS.endsWith s pat = true ↔ Spec.ends pat s.
Proof.
  unfold JS.endsWith. rewrite andb_true_iff, !bool_decide_eq_true. split.
  - intros [Hle E].
    exists (String.substring 0 (String.length s - String.length pat) s).
    rewrite (substring_split s (String.length s - String.length pat)
               (String.length pat)) at 1 by lia.
    rewrite E.
    replace (String.length s
             - (String.length s - String.length pat + String.length pat))%nat
      with 0%nat by lia.
    by rewrite substring_none, append_nil_r.
  - intros [p ->]. rewrite length_append. split; [lia|].
    replace (String.length p + String.length pat - String.length pat)%nat
      with (String.length p) by lia.
    by rewrite substring_append, substring_0_all.
Qed.

End string_facts.
(** ** Facts about the built-ins *)

Section js_facts.

Lemma Array_indexOf_neg (arr : list string) (item : string) :
  JS.Array_indexOf arr item < 0 ↔ item ∉ arr.
Proof.
  unfold JS.Array_indexOf.
  destruct (list_find _ arr) as [[i y]|] eqn:E.
  - apply list_find_Some in E as (Hi & -> & _).
    split; [lia|]. intros []. eapply list_elem_of_lookup_2; eauto.
  - split; [intros _|lia].
    rewrite list_find_None in E. intros Hin.
    rewrite Forall_forall in E. by apply (E item).
Qed.

End js_facts.

(** ** [Data.concatArr] *)

Section concatArr.

Lemma concatArr_push_eq (result : list string) (item : string) :
  Data.concatArr_push result item =
    if decide ((item ∉ result) ∧ item ≠ "") then result ++ [item]
    else result.
Proof.
  unfold Data.concatArr_push.
  destruct (decide _) as [[H1 H2]|H].
  - rewrite (bool_decide_eq_true_2 _ (proj2 (Array_indexOf_neg _ _) H1)).
    by rewrite (bool_decide_eq_false_2 _ H2).
  - destruct (bool_decide (JS.Array_indexOf _ _ < 0)) eqn:E1; [|done].
    destruct (bool_decide (item = "")) eqn:E2; [done|]. simpl.
    apply bool_decide_eq_true_1, Array_indexOf_neg in E1.
    apply bool_decide_eq_false_1 in E2. by destruct H.
Qed.

(** What one [forEach] adds to [result]: the new items [r'] are the
    non-empty items of [arr] that [result] lacks, each once, in the order
    of their first occurrence in [arr]. *)
Lemma foldl_push_spec (arr : list string) :
  ∀ result, ∃ r',
    foldl Data.concatArr_push result arr = result ++ r' ∧
    NoDup r' ∧
    (∀ x, x ∈ r' → (x ∉ result) ∧ x ≠ "" ∧ x ∈ arr) ∧
    (∀ x, x ∈ arr → x ≠ "" → x ∈ result ∨ x ∈ r') ∧
    (∀ r1 x r2, r' = r1 ++ x :: r2 →
       ∃ l1 l2, arr = l1 ++ x :: l2 ∧ (x ∉ l1) ∧
                (∀ z, z ∈ r1 → z ∈ l1) ∧ (∀ z, z ∈ r2 → z ∉ l1)).
Proof.
  induction arr as [|y arr IH]; intros result; simpl.
  - exists []. rewrite app_nil_r. split_and!; try done.
    + constructor.
    + intros x Hx. by apply not_elem_of_nil in Hx.
    + intros x Hx. by apply not_elem_of_nil in Hx.
    + intros [|??] ? ? ?; discriminate.
  - rewrite concatArr_push_eq. destruct (decide _) as [[Hy1 Hy2]|Hy].
    + destruct (IH (result ++ [y])) as (r' & -> & Hnd & Hin & Hcov & Hord).
      exists (y :: r'). rewrite <-app_assoc. split_and!; try done.
      * constructor; [|done]. intros Hyr. apply Hin in Hyr as (Hn & _).
        apply Hn. set_solver.
      * intros x [->|Hx]%elem_of_cons; [set_solver|].
        apply Hin in Hx as (Hn & ? & ?). set_solver.
      * intros x [->|Hx]%elem_of_cons Hne; [set_solver|].
        destruct (Hcov x Hx Hne); set_solver.
      * intros r1 x r2 Hsplit. destruct r1 as [|y' r1]; simplify_eq/=.
        -- exists [], arr. split_and!; try done; [set_solver..|].
           intros z _ Hz. by apply not_elem_of_nil in Hz.
        -- destruct (Hord r1 x r2 eq_refl) as (l1 & l2 & -> & Hx & H1 & H2).
           assert (∀ z, z ∈ r1 ++ x :: r2 → z ≠ y') as Hney.
           { intros z Hz ->. apply Hin in Hz as (Hn & _). set_solver. }
           exists (y' :: l1), l2. split_and!; [done|..].
           ++ intros [->|?]%elem_of_cons; [|done].
              apply (Hney y'); set_solver.
           ++ set_solver.
           ++ intros z Hz [->|?]%elem_of_cons; [|by eapply H2].
              apply (Hney y'); set_solver.
    + destruct (IH result) as (r' & -> & Hnd & Hin & Hcov & Hord).
      exists r'. split_and!; try done.
      * intros x Hx. apply Hin in Hx. set_solver.
      * intros x [->|Hx]%elem_of_cons Hne; [|by apply Hcov].
        left. destruct (decide (y ∈ result)); [done|]. by destruct Hy.
      * intros r1 x r2 ->.
        destruct (Hord r1 x r2 eq_refl) as (l1 & l2 & -> & Hx & H1 & H2).
        assert (∀ z, z ∈ r1 ++ x :: r2 → z ≠ y) as Hney.
        { intros z Hz ->. apply Hin in Hz as (Hn & Hne & _).
          by apply Hy. }
        exists (y :: l1), l2. split_and!; [done|..].
        -- intros [->|?]%elem_of_cons; [|done].
           apply (Hney y); set_solver.
        -- set_solver.
        -- intros z Hz [->|?]%elem_of_cons; [|by eapply H2].
           apply (Hney y); set_solver.
Qed.

Lemma concatArr_foldl (A B : list string) :
  Data.concatArr A B = foldl Data.concatArr_push [] (A ++ B).
Proof. unfold Data.concatArr. by rewrite foldl_app. Qed.

(** C10. [Data.concatArr A B] has no duplicates and no empty string; its
    elements are exactly the elements of [A] and [B] other than the empty
    string; they stand in the order of their first occurrence in [A]
    followed by [B] (wherever the result splits around an item [x], the
    input splits at the first occurrence of [x], with the items before
    [x] in the result occurring before it and the items after [x] not);
    and [concatArr A A] equals [concatArr A []]. *)
Theorem concatArr_spec (A B : list string) :
  NoDup (Data.concatArr A B) ∧
  ("" ∉ Data.concatArr A B) ∧
  (∀ x, x ∈ Data.concatArr A B ↔ (x ∈ A ∨ x ∈ B) ∧ x ≠ "") ∧
  (∀ r1 x r2, Data.concatArr A B = r1 ++ x :: r2 →
     ∃ l1 l2, A ++ B = l1 ++ x :: l2 ∧ (x ∉ l1) ∧
              (∀ z, z ∈ r1 → z ∈ l1) ∧ (∀ z, z ∈ r2 → z ∉ l1)) ∧
  Data.concatArr A A = Data.concatArr A [].
Proof.
  split_and!.
  - rewrite concatArr_foldl.
    by destruct (foldl_push_spec (A ++ B) []) as (r' & -> & ? & _).
  - rewrite concatArr_foldl.
    destruct (foldl_push_spec (A ++ B) []) as (r' & -> & _ & Hin & _).
    intros H. by apply Hin in H as (_ & ? & _).
  - intros x. rewrite concatArr_foldl.
    destruct (foldl_push_spec (A ++ B) []) as (r' & -> & _ & Hin & Hcov & _).
    simpl. split.
    + intros Hx. apply Hin in Hx as (_ & ? & ?). set_solver.
    + intros [Hx Hne]. destruct (Hcov x) as [H|H]; [set_solver|done|..|done].
      by apply not_elem_of_nil in H.
  - intros r1 x r2. rewrite concatArr_foldl.
    destruct (foldl_push_spec (A ++ B) []) as (r' & -> & _ & _ & _ & Hord).
    apply Hord.
  - unfold Data.concatArr. simpl.
    destruct (foldl_push_spec A []) as (r & Hr & _ & _ & Hcov & _).
    destruct (foldl_push_spec A (foldl Data.concatArr_push [] A))
      as (r' & -> & _ & Hin & _).
    destruct r' as [|x r']; [by rewrite app_nil_r|].
    destruct (Hin x) as (Hn & Hne & Hx); [set_solver|].
    destruct Hn. rewrite Hr. destruct (Hcov x Hx Hne); set_solver.
Qed.

End concatArr.

(** ** [Data.prototype.initTimes] *)

Section initTimes.

Lemma distinct_NoDup (l : list string) :
  Spec.distinct l = true → NoDup l.
Proof.
  induction l as [|x l IH]; simpl; [constructor|].
  intros [Hx Hl]%andb_prop. constructor; [|by apply IH].
  intros Hin. apply negb_true_iff in Hx.
  assert (existsb (String.eqb x) l = true) as E; [|congruence].
  apply existsb_exists. exists x. split.
  - by apply list_elem_of_In.
  - apply String.eqb_refl.
Qed.

(** C8. [initTimes] produces exactly 1440 strings; the string at index
    [i] is minute [i] of the day on a twelve-hour clock with two-digit
    minutes, so that the AM block precedes the PM block and each block
    starts with its sixty twelve-o'clock minutes followed by the hours 1
    to 11; the first string is '12:00 AM'; and no string occurs twice. *)
Theorem initTimes_spec :
  length Data.initTimes = 1440%nat ∧
  Data.initTimes = Spec.clock12 <$> seq 0 1440 ∧
  Data.initTimes !! 0%nat = Some "12:00 AM" ∧
  Data.initTimes !! 60%nat = Some "1:00 AM" ∧
  Data.initTimes !! 720%nat = Some "12:00 PM" ∧
  Data.initTimes !! 1439%nat = Some "11:59 PM" ∧
  NoDup Data.initTimes.
Proof.
  split_and!; try (vm_compute; reflexivity).
  apply distinct_NoDup. vm_compute. reflexivity.
Qed.

End initTimes.

(** ** [Snackbar.view] *)

Section snackbar.



End snackbar.

(** ** [Data.post] *)

Section post.

Lemma post_then_trace (res : value) : trace (Data.post_then res) = [].
Proof.
  destruct res; try done. simpl. by case_bool_decide.
Qed.

(** A run of [post] once the token is there. *)
Lemma post_unfold (app : App) (action : string) (d : value)
    (tok : string) :
  getIdToken app = inr tok →
  Data.post app action d =
    let req := Data.post_request app action tok d in
    let line := "[ERROR] During " +:+ action +:+ " REST API call." in
    match axios app req with
    | inl err => ([Http req; ConsoleError line], inl err)
    | inr res =>
        match outcome (Data.post_then res) with
        | inl err => ([Http req; ConsoleError line], inl err)
        | inr v => ([Http req], inr v)
        end
    end.
Proof.
  intros Htok. unfold Data.post. rewrite Htok. simpl.
  destruct (axios app _) as [err|res]; simpl; [done|].
  pose proof (post_then_trace res) as Ht.
  destruct (Data.post_then res) as [t [e|v]]; simpl in *; by subst.
Qed.

Lemma post_requests (app : App) (action : string) (d : value)
    (tok : string) :
  getIdToken app = inr tok →
  requests (trace (Data.post app action d))
  = [Data.post_request app action tok d].
Proof.
  intros Htok. rewrite (post_unfold _ _ _ _ Htok). simpl.
  destruct (axios app _) as [err|res]; [done|].
  by destruct (outcome (Data.post_then res)).
Qed.

Lemma post_then_throws (s : string) :
  0 < JS.indexOf s "ERROR" →
  Data.post_then (VString s)
  = throw (Error (JS.replace s "[ERROR] " "")).
Proof. intros H. simpl. by rewrite bool_decide_eq_true_2. Qed.

Lemma post_then_returns (res : value) :
  (∀ s, res = VString s → ¬ 0 < JS.indexOf s "ERROR") →
  Data.post_then res = ret res.
Proof.
  intros H. destruct res; try done. simpl.
  rewrite bool_decide_eq_false_2; [done|]. by apply H.
Qed.

Lemma replace_prefix (msg : string) :
  JS.replace ("[ERROR] " +:+ msg) "[ERROR] " "" = msg.
Proof.
  unfold JS.replace.
  destruct msg as [|a msg]; simpl; [done|].
  f_equal. apply substring_0_all.
Qed.

Lemma indexOf_prefix (msg : string) :
  JS.indexOf ("[ERROR] " +:+ msg) "ERROR" = 1.
Proof. unfold JS.indexOf. simpl. done. Qed.

(** C3, as the code has it. When the REST layer answers with a string
    in which 'ERROR' occurs but which does not begin with 'ERROR',
    [post] throws an [Error] whose message is the answer without its
    first '[ERROR] '; in particular an answer '[ERROR] msg' throws an
    [Error] with message 'msg'. When the answer is not a string, or is a
    string in which 'ERROR' does not occur, [post] returns it
    unchanged. *)
Theorem post_error_string (app : App) (action : string) (d : value)
    (tok : string) (res : value) :
  getIdToken app = inr tok →
  axios app (Data.post_request app action tok d) = inr res →
  (∀ msg, res = VString ("[ERROR] " +:+ msg) →
     outcome (Data.post app action d) = inl (Error msg)) ∧
  (∀ s, res = VString s →
     Spec.occurs "ERROR" s → ¬ Spec.begins "ERROR" s →
     outcome (Data.post app action d)
     = inl (Error (JS.replace s "[ERROR] " ""))) ∧
  ((∀ s, res = VString s → ¬ Spec.occurs "ERROR" s) →
     outcome (Data.post app action d) = inr res).
Proof.
  intros Htok Hres. rewrite (post_unfold _ _ _ _ Htok). cbv zeta.
  rewrite Hres. split_and!.
  - intros msg ->. rewrite post_then_throws.
    + by rewrite replace_prefix.
    + rewrite indexOf_prefix. lia.
  - intros s -> Hocc Hnb. rewrite post_then_throws; [done|].
    by apply indexOf_pos.
  - intros Hno. rewrite post_then_returns; [done|].
    intros s -> Hpos. apply indexOf_pos in Hpos as [Hocc _]; [|done].
    by eapply Hno.
Qed.

Lemma post_error_string_witness :
  outcome (Data.post (Spec.sample_app (inr (VString "[ERROR] No such user.")))
             "approveRequest" VUndefined)
  = inl (Error "No such user.").
Proof.
  by apply (post_error_string
              (Spec.sample_app (inr (VString "[ERROR] No such user.")))
              "approveRequest" VUndefined "token"
              (VString "[ERROR] No such user.") eq_refl eq_refl).
Defined.

(** An answer that is not the error string of the specification, yet
    [post] throws instead of returning it. *)
Lemma post_throws_on_other_string :
  ¬ Spec.sentinel (VString "Server ERROR") ∧
  outcome (Data.post (Spec.sample_app (inr (VString "Server ERROR")))
             "approveRequest" VUndefined)
  = inl (Error "Server ERROR").
Proof.
  split; [|reflexivity].
  intros (s & [= <-] & [?|[q ?]]); discriminate.
Qed.

(** The bare answer 'ERROR' is returned as data. *)
Example post_returns_bare_ERROR :
  Data.post (Spec.sample_app (inr (VString "ERROR")))
    "approveRequest" VUndefined
  = ([Http (Data.post_request
              (Spec.sample_app (inr (VString "ERROR")))
              "approveRequest" "token" VUndefined)],
     inr (VString "ERROR")).
Proof. reflexivity. Qed.

End post.

(** ** Retries *)

Section retries.

Lemma post_no_token (app : App) (action : string) (d : value) (e : exn) :
  getIdToken app = inl e → Data.post app action d = ([], inl e).
Proof. intros H. unfold Data.post. by rewrite H. Qed.

Lemma post_trace_cases (app : App) (action : string) (d : value) :
  trace (Data.post app action d) = [] ∨
  ∃ tok, getIdToken app = inr tok ∧
    (trace (Data.post app action d)
     = [Http (Data.post_request app action tok d)] ∨
     trace (Data.post app action d)
     = [Http (Data.post_request app action tok d);
        ConsoleError
          ("[ERROR] During " +:+ action +:+ " REST API call.")]).
Proof.
  destruct (getIdToken app) as [e|tok] eqn:Htok.
  - left. by rewrite (post_no_token _ _ _ _ Htok).
  - right. exists tok. split; [done|].
    rewrite (post_unfold _ _ _ _ Htok). cbv zeta.
    destruct (axios app _) as [err|res]; [by right|].
    destruct (outcome (Data.post_then res)); [by right|by left].
Qed.

(** How [getAccountURL] runs when the attempts from [a] on fail [n] times
    and then succeed. *)
Lemma getAccountURL_run (app : App) (answers : nat → exn + string)
    (url : string) (n : nat) :
  ∀ timers a,
    (∀ i, (i < n)%nat → ∃ err, answers (a + i)%nat = inl err) →
    answers (a + n)%nat = inr url →
    (n ≤ timers)%nat →
    requests (Payments.getAccountURL timers app answers a).1
    = replicate (S n) (Payments.accountURL_request app) ∧
    Spec.timers (Payments.getAccountURL timers app answers a).1
    = replicate n 5000 ∧
    (Payments.getAccountURL timers app answers a).2 = Some url.
Proof.
  induction n as [|n IH]; intros timers a Hfail Hok Hle.
  - rewrite Nat.add_0_r in Hok.
    destruct timers; simpl; by rewrite Hok.
  - destruct timers as [|timers]; [lia|]. simpl.
    destruct (Hfail 0%nat) as [err Herr]; [lia|].
    rewrite Nat.add_0_r in Herr. rewrite Herr.
    destruct (IH timers (S a)) as (Hreq & Htim & Hurl).
    + intros i Hi. destruct (Hfail (S i)) as [e He]; [lia|].
      exists e. by rewrite <-He, Nat.add_succ_r.
    + by rewrite <-Hok, Nat.add_succ_r.
    + lia.
    + destruct (Payments.getAccountURL timers app answers (S a))
        as [t r]. simpl in *. by rewrite Hreq, Htim, Hurl.
Qed.




End retries.

(** ** The wrappers of the REST actions *)

Section wrappers.



End wrappers.

(** ** Identifiers *)

Section identifiers.

Lemma indexOf_occurs (s pat : string) :
  pat ≠ "" → Spec.occurs pat s → 0 ≤ JS.indexOf s pat.
Proof.
  intros Hpat Hocc. destruct (indexOf_nonneg s pat) as [E|]; [|done].
  by apply indexOf_none in E.
Qed.

Lemma falsy_truthy (x : option string) :
  JS.falsy x = true → JS.truthy x = false.
Proof. unfold JS.truthy. by intros ->. Qed.

Lemma truthy_Some (i : string) : i ≠ "" → JS.truthy (Some i) = true.
Proof.
  intros H. unfold JS.truthy. simpl. by rewrite bool_decide_eq_false_2.
Qed.

Lemma truthy_falsy (x : option string) :
  JS.truthy x = true → JS.falsy x = false.
Proof. unfold JS.truthy. by destruct (JS.falsy x). Qed.

Lemma getUser_guard (app : App) (id : option string) :
  id = None ∨ id = Some "" ∨ (∃ s, id = Some s ∧ Spec.occurs "@" s) →
  ∃ e, Data.getUser app id = ([], inl e).
Proof.
  intros [->|[->|(s & -> & Hocc)]]; [by eexists..|].
  unfold Data.getUser. destruct (JS.falsy (Some s)); [by eexists|].
  rewrite bool_decide_eq_true_2; [by eexists|].
  by apply indexOf_occurs.
Qed.

Lemma deleteUser_guard (app : App) (id : option string) :
  id = None ∨ id = Some "" ∨ (∃ s, id = Some s ∧ Spec.occurs "@" s) →
  ∃ e, Data.deleteUser app id = ([], inl e).
Proof.
  intros [->|[->|(s & -> & Hocc)]]; [by eexists..|].
  unfold Data.deleteUser. destruct (JS.falsy (Some s)); [by eexists|].
  rewrite bool_decide_eq_true_2; [by eexists|].
  by apply indexOf_occurs.
Qed.

(** Without a uid, [updateUser] warns, writes nothing and throws: a
    [TypeError] from [updateUserLocation] when the user has no
    availability, otherwise one of its own two errors. *)
Lemma updateUser_guard (app : App) (u : User) :
  JS.falsy (uid u) = true →
  filter is_write (trace (Data.updateUser app (Some u))) = [] ∧
  outcome (Data.updateUser app (Some u)) =
    inl (match availability u with
         | None => TypeError "Cannot convert undefined or null to object"
         | Some _ =>
             if JS.falsy (id u) && JS.falsy (email u)
             then Error "Could not update user b/c id was undefined."
             else Error "Using an email as a user ID is deprecated."
         end).
Proof.
  intros Huid. unfold Data.updateUser, Data.updateUserAvailability.
  rewrite Huid. simpl. unfold Data.updateUserLocation.
  destruct (availability u) as [avail|]; simpl; [|done].
  rewrite Huid, (falsy_truthy _ Huid), andb_true_r.
  by destruct (JS.falsy (id u) && JS.falsy (email u)).
Qed.

(** C4. [getUser] and [deleteUser] throw, without touching Firestore,
    for an id that is undefined, empty or contains '@'. [updateUser]
    throws, without writing to Firestore, for every user without a uid:
    in particular for a user with no uid, no id and no email, and for a
    user with an email and no uid. *)
Theorem malformed_identifiers_throw (app : App) :
  (∀ id : option string,
     id = None ∨ id = Some "" ∨ (∃ s, id = Some s ∧ Spec.occurs "@" s) →
     (∃ e, Data.getUser app id = ([], inl e)) ∧
     (∃ e, Data.deleteUser app id = ([], inl e))) ∧
  (∀ u : User,
     JS.falsy (uid u) = true →
     (∃ e, outcome (Data.updateUser app (Some u)) = inl e) ∧
     filter is_write (trace (Data.updateUser app (Some u))) = []) ∧
  (∀ u : User,
     JS.falsy (uid u) = true → JS.falsy (id u) = true →
     JS.falsy (email u) = true → is_Some (availability u) →
     outcome (Data.updateUser app (Some u))
     = inl (Error "Could not update user b/c id was undefined.")) ∧
  (∀ u : User,
     JS.falsy (uid u) = true → JS.truthy (email u) = true →
     is_Some (availability u) →
     outcome (Data.updateUser app (Some u))
     = inl (Error "Using an email as a user ID is deprecated.")).
Proof.
  split_and!.
  - intros id Hid. split; [by apply getUser_guard|by apply deleteUser_guard].
  - intros u Huid. destruct (updateUser_guard app u Huid) as [Hw Ho].
    split; [by eexists|done].
  - intros u Huid Hid Hemail [a Ha].
    destruct (updateUser_guard app u Huid) as [_ ->].
    by rewrite Ha, Hid, Hemail.
  - intros u Huid Hemail [a Ha].
    destruct (updateUser_guard app u Huid) as [_ ->].
    by rewrite Ha, (truthy_falsy _ Hemail), andb_false_r.
Qed.

Lemma malformed_identifiers_throw_witness :
  (∃ e, Data.getUser (Spec.sample_app (inr VUndefined)) (Some "ada@test")
        = ([], inl e)) ∧
  (∃ e, outcome (Data.updateUser (Spec.sample_app (inr VUndefined))
                   (Some (Spec.sample_user None None (Some "ada@test"))))
        = inl e).
Proof.
  pose proof (malformed_identifiers_throw (Spec.sample_app (inr VUndefined)))
    as (Hid & Hu & _).
  split.
  - apply (Hid (Some "ada@test")). right. right.
    exists "ada@test". split; [reflexivity|]. by exists "ada", "test".
  - apply (Hu (Spec.sample_user None None (Some "ada@test"))).
    reflexivity.
Defined.

End identifiers.

(** ** [Data.createUser] *)

Section createUser.

(** C7. [createUser] writes the document users/{uid} for a user with a
    uid. For a user without a uid but with an id or an email, it sends
    the createProxyUser action when the app's user is a Supervisor whose
    id differs from the new user's, and otherwise writes the document of
    usersByEmail keyed by the user's id, or by its email when it has no
    id. For a user with no id, no uid and no email it throws. *)
Theorem createUser_dispatch (app : App) (u : User) :
  (∀ i, uid u = Some i → i ≠ "" →
     Data.createUser app (Some u)
     = ([FsSet ["users"; i] u], inr VUndefined)) ∧
  (JS.falsy (uid u) = true →
   JS.truthy (id u) = true ∨ JS.truthy (email u) = true →
   type (app_user app) = Some "Supervisor" →
   id (app_user app) ≠ id u →
     Data.createUser app (Some u)
     = Data.post app "createProxyUser" (VObject [("user", VUser u)]) ∧
     filter is_write (trace (Data.createUser app (Some u))) = [] ∧
     ∀ tok, getIdToken app = inr tok →
       requests (trace (Data.createUser app (Some u)))
       = [Data.post_request app "createProxyUser" tok
            (VObject [("user", VUser u)])]) ∧
  (∀ key,
     JS.falsy (uid u) = true →
     (id u = Some key ∨ (JS.falsy (id u) = true ∧ email u = Some key)) →
     key ≠ "" →
     ¬ (type (app_user app) = Some "Supervisor" ∧
        id (app_user app) ≠ id u) →
     Data.createUser app (Some u)
     = ([ConsoleWarn
           "[WARNING] Using an email as a user ID is deprecated.";
         FsSet ["usersByEmail"; key] u], inr VUndefined)) ∧
  (JS.falsy (id u) = true → JS.falsy (uid u) = true →
   JS.falsy (email u) = true →
     Data.createUser app (Some u)
     = ([], inl (Error "Could not create user b/c id was undefined."))).
Proof.
  split_and!.
  - intros i Hi Hne. unfold Data.createUser.
    rewrite Hi, (truthy_Some _ Hne), (truthy_falsy _ (truthy_Some _ Hne)).
    by rewrite andb_false_r.
  - intros Huid Hsome Htype Hid.
    assert (Data.createUser app (Some u)
            = Data.post app "createProxyUser"
                (VObject [("user", VUser u)])) as E.
    { unfold Data.createUser.
      rewrite Huid, (falsy_truthy _ Huid), !bool_decide_eq_true_2 by done.
      destruct Hsome as [H|H]; rewrite (truthy_falsy _ H); simpl; [done|].
      by rewrite andb_false_r. }
    rewrite E. split_and!; [done|..].
    + by destruct (post_trace_cases app "createProxyUser"
                     (VObject [("user", VUser u)]))
        as [->|(tok & _ & [->| ->])].
    + intros tok Htok. by apply post_requests.
  - intros key Huid Hkey Hne Hnot. unfold Data.createUser.
    rewrite Huid, (falsy_truthy _ Huid).
    assert (bool_decide (type (app_user app) = Some "Supervisor")
            && bool_decide (id (app_user app) ≠ id u) = false) as ->.
    { apply andb_false_iff.
      destruct (decide (type (app_user app) = Some "Supervisor"));
        [|left; by apply bool_decide_eq_false_2].
      right. apply bool_decide_eq_false_2. naive_solver. }
    destruct Hkey as [Hid|[Hid Hemail]].
    + unfold JS.or_else. rewrite Hid, (truthy_Some _ Hne).
      by rewrite (truthy_falsy _ (truthy_Some _ Hne)).
    + unfold JS.or_else.
      rewrite Hid, (falsy_truthy _ Hid), Hemail.
      by rewrite (truthy_falsy _ (truthy_Some _ Hne)).
  - intros Hid Huid Hemail. unfold Data.createUser.
    by rewrite Hid, Huid, Hemail.
Qed.

Lemma createUser_dispatch_witness :
  Data.createUser (Spec.sample_app (inr VUndefined))
    (Some (Spec.sample_user (Some "u2") None None))
  = ([FsSet ["users"; "u2"] (Spec.sample_user (Some "u2") None None)],
     inr VUndefined) ∧
  Data.createUser (Spec.sample_app (inr VUndefined))
    (Some (Spec.sample_user None None (Some "bob@test")))
  = ([ConsoleWarn "[WARNING] Using an email as a user ID is deprecated.";
      FsSet ["usersByEmail"; "bob@test"]
        (Spec.sample_user None None (Some "bob@test"))], inr VUndefined).
Proof.
  split.
  - apply (proj1 (createUser_dispatch (Spec.sample_app (inr VUndefined))
                    (Spec.sample_user (Some "u2") None None)) "u2");
      [reflexivity|discriminate].
  - apply (proj1 (proj2 (proj2 (createUser_dispatch
              (Spec.sample_app (inr VUndefined))
              (Spec.sample_user None None (Some "bob@test")))))
             "bob@test"); [reflexivity| |discriminate|].
    + right. split; reflexivity.
    + intros [[=] _].
Defined.

End createUser.

(** ** [ViewApptDialog.update] *)

Section timer.

Implicit Types s h m c rest cur : string.

(** *** Splitting *)

Lemma lacks_append sep s rest :
  Spec.lacks sep (s +:+ rest) = Spec.lacks sep s && Spec.lacks sep rest.
Proof.
  induction s as [|a s IH]; simpl; [done|].
  by rewrite IH, andb_assoc.
Qed.

Lemma split_go_lacks sep s : ∀ cur,
  Spec.lacks sep s = true → JS.split_go sep s cur = [cur +:+ s].
Proof.
  induction s as [|a s IH]; intros cur; simpl.
  - by rewrite append_nil_r.
  - intros [Ha Hs]%andb_prop. apply negb_true_iff in Ha. rewrite Ha.
    rewrite IH by done. by rewrite append_assoc.
Qed.

Lemma split_go_sep sep s rest : ∀ cur,
  Spec.lacks sep s = true →
  JS.split_go sep (s +:+ String sep rest) cur
  = (cur +:+ s) :: JS.split_go sep rest "".
Proof.
  induction s as [|a s IH]; intros cur; simpl.
  - intros _. by rewrite bool_decide_eq_true_2, append_nil_r.
  - intros [Ha Hs]%andb_prop. apply negb_true_iff in Ha. rewrite Ha.
    rewrite IH by done. by rewrite append_assoc.
Qed.

Lemma digits_lack sep s :
  Spec.is_digit sep = false → Spec.all_digits s = true →
  Spec.lacks sep s = true.
Proof.
  intros Hsep. induction s as [|a s IH]; simpl; [done|].
  intros [Ha Hs]%andb_prop. rewrite IH by done.
  rewrite bool_decide_eq_false_2; [done|]. intros ->. congruence.
Qed.

(** The three splits that [advance] makes of a well-formed display. *)
Lemma split_display h m s c :
  Spec.all_digits h = true → Spec.all_digits m = true →
  Spec.all_digits s = true → Spec.all_digits c = true →
  JS.split (h +:+ ":" +:+ m +:+ ":" +:+ s +:+ "." +:+ c) ":"%char
  = [h; m; s +:+ "." +:+ c] ∧
  JS.split (s +:+ "." +:+ c) "."%char = [s; c] ∧
  JS.split (h +:+ ":" +:+ m +:+ ":" +:+ s +:+ "." +:+ c) "."%char
  = [h +:+ ":" +:+ m +:+ ":" +:+ s; c].
Proof.
  intros Hh Hm Hs Hc. unfold JS.split.
  assert (∀ x, Spec.all_digits x = true → Spec.lacks ":"%char x = true) as Hcolon.
  { intros x. by apply digits_lack. }
  assert (∀ x, Spec.all_digits x = true → Spec.lacks "."%char x = true) as Hdot.
  { intros x. by apply digits_lack. }
  split_and!.
  - change (h +:+ ":" +:+ m +:+ ":" +:+ s +:+ "." +:+ c)
      with (h +:+ String ":"%char (m +:+ String ":"%char (s +:+ "." +:+ c))).
    rewrite !split_go_sep by auto. simpl.
    rewrite split_go_lacks; [done|].
    rewrite lacks_append. simpl. by rewrite Hcolon, Hcolon.
  - change (s +:+ "." +:+ c) with (s +:+ String "."%char c).
    rewrite split_go_sep by auto. by rewrite split_go_lacks by auto.
  - replace (h +:+ ":" +:+ m +:+ ":" +:+ s +:+ "." +:+ c)
      with ((h +:+ ":" +:+ m +:+ ":" +:+ s) +:+ String "."%char c).
    + rewrite split_go_sep, split_go_lacks by
        (rewrite ?lacks_append; simpl; rewrite ?lacks_append; simpl;
         rewrite ?Hdot; auto).
      done.
    + by rewrite !append_assoc.
Qed.

(** *** Numbers and their decimal strings *)

Lemma string_of_uint_digits (d : Decimal.uint) :
  Spec.all_digits (DecimalString.NilEmpty.string_of_uint d) = true.
Proof. induction d; simpl; auto. Qed.

Lemma to_uint_nonnil (n : N) : N.to_uint n ≠ Decimal.Nil.
Proof.
  destruct n as [|p]; simpl; [done|].
  apply DecimalPos.Unsigned.to_uint_nonnil.
Qed.

Lemma toString_eq (n : N) :
  JS.toString n = DecimalString.NilEmpty.string_of_uint (N.to_uint n).
Proof.
  unfold JS.toString. pose proof (to_uint_nonnil n).
  by destruct (N.to_uint n).
Qed.

Lemma toString_digits (n : N) : Spec.digits (JS.toString n).
Proof.
  split.
  - rewrite toString_eq. pose proof (to_uint_nonnil n).
    by destruct (N.to_uint n).
  - rewrite toString_eq. apply string_of_uint_digits.
Qed.

Lemma Number_toString (n : N) : JS.Number (JS.toString n) = Some n.
Proof.
  unfold JS.Number.
  rewrite toString_eq, DecimalString.NilEmpty.usu. simpl.
  by rewrite DecimalN.Unsigned.of_to.
Qed.

(** *** The carries *)

Lemma carry_spec (H M S C : N) :
  (M < 60)%N → (S < 60)%N → (C < 100)%N →
  ∃ k' : Spec.Clock,
    ViewApptDialog.carry
      (ViewApptDialog.Boxed H) (ViewApptDialog.Boxed M)
      (ViewApptDialog.Boxed S) (ViewApptDialog.Boxed C)
    = JS.toString (Spec.hh k') +:+ ":" +:+ JS.toString (Spec.mm k')
        +:+ ":" +:+ JS.toString (Spec.ss k') +:+ "."
        +:+ JS.toString (Spec.cc k') ∧
    (Spec.mm k' < 60)%N ∧ (Spec.ss k' < 60)%N ∧ (Spec.cc k' < 100)%N ∧
    Spec.centiseconds k'
    = (Spec.centiseconds
         {| Spec.hh := H; Spec.mm := M; Spec.ss := S; Spec.cc := C |}
       + 1)%N.
Proof.
  intros HM HS HC. unfold ViewApptDialog.carry, Spec.centiseconds.
  cbn [ViewApptDialog.incr ViewApptDialog.valueOf ViewApptDialog.strict_eq].
  case_bool_decide as E1;
    cbn [ViewApptDialog.incr ViewApptDialog.valueOf
         ViewApptDialog.strict_eq].
  - case_bool_decide as E2;
      cbn [ViewApptDialog.incr ViewApptDialog.valueOf
           ViewApptDialog.strict_eq].
    + case_bool_decide as E3;
        cbn [ViewApptDialog.incr ViewApptDialog.valueOf
             ViewApptDialog.strict_eq].
      * exists {| Spec.hh := H + 1; Spec.mm := 0;
                  Spec.ss := 0; Spec.cc := 0 |}.
        simpl. split_and!; [done|lia..].
      * exists {| Spec.hh := H; Spec.mm := M + 1;
                  Spec.ss := 0; Spec.cc := 0 |}.
        simpl. split_and!; [done|lia..].
    + exists {| Spec.hh := H; Spec.mm := M;
                Spec.ss := S + 1; Spec.cc := 0 |}.
      simpl. split_and!; [done|lia..].
  - exists {| Spec.hh := H; Spec.mm := M;
              Spec.ss := S; Spec.cc := C + 1 |}.
    simpl. split_and!; [done|lia..].
Qed.

(** *** One run *)

Lemma advance_well_formed (display : string) (k : Spec.Clock) :
  Spec.well_formed display k →
  ∃ out k',
    ViewApptDialog.advance display = Some out ∧
    Spec.well_formed out k' ∧
    Spec.centiseconds k' = (Spec.centiseconds k + 1)%N.
Proof.
  intros (h & m & s & c & -> & [_ Hh] & [_ Hm] & [_ Hs] & [_ Hc]
          & Nh & Nm & Ns & Nc & HM & HS & HC).
  destruct (split_display h m s c Hh Hm Hs Hc) as (E1 & E2 & E3).
  destruct (carry_spec (Spec.hh k) (Spec.mm k) (Spec.ss k) (Spec.cc k))
    as (k' & Hcarry & HM' & HS' & HC' & Hcs); [done..|].
  eexists _, k'. split_and!.
  - unfold ViewApptDialog.advance, ViewApptDialog.before_dot.
    rewrite E1, E3. simpl. rewrite Nh, Nm. simpl.
    simpl in E2. rewrite E2. simpl. rewrite Ns, Nc. simpl.
    by rewrite Hcarry.
  - exists (JS.toString (Spec.hh k')), (JS.toString (Spec.mm k')),
           (JS.toString (Spec.ss k')), (JS.toString (Spec.cc k')).
    split_and!; try done;
      first [apply toString_digits | apply Number_toString].
  - rewrite Hcs. by destruct k.
Qed.

(** A display reads as one clock only. *)
Lemma well_formed_unique (display : string) (k1 k2 : Spec.Clock) :
  Spec.well_formed display k1 → Spec.well_formed display k2 → k1 = k2.
Proof.
  intros (h & m & s & c & -> & [_ Hh] & [_ Hm] & [_ Hs] & [_ Hc]
          & Nh & Nm & Ns & Nc & _)
         (h' & m' & s' & c' & E & [_ Hh'] & [_ Hm'] & [_ Hs'] & [_ Hc']
          & Nh' & Nm' & Ns' & Nc' & _).
  destruct (split_display h m s c Hh Hm Hs Hc) as (E1 & E2 & _).
  destruct (split_display h' m' s' c' Hh' Hm' Hs' Hc') as (E1' & E2' & _).
  rewrite E in E1. rewrite E1' in E1.
  injection E1 as -> -> Hsc.
  assert ([s'; c'] = [s; c]) as [= -> ->].
  { rewrite <-E2, <-E2'. unfold JS.split. f_equal. exact Hsc. }
  destruct k1, k2. simpl in *. congruence.
Qed.



(** The two displays after the first tick of a fresh timer. *)
Example update_fresh :
  ViewApptDialog.update
    {| ViewApptDialog.Current := "0:0:0.00";
       ViewApptDialog.Total := "0:0:0.00" |}
  = Some {| ViewApptDialog.Current := "0:0:0.1";
            ViewApptDialog.Total := "0:0:0.1" |}.
Proof. reflexivity. Qed.

End timer.

(** ** [Data.updateUserAvailability] *)

Section availability.

Implicit Types ba : Availability.
Implicit Types loc day l d o c : string.
Implicit Types t s : Timeslot.

(** *** The windows of a day under the three updates *)

Lemma windows_insert ba loc (days : gmap string (list Timeslot)) l d :
  Data.windows (<[loc := days]> ba) l d
  = if decide (loc = l) then default [] (days !! d)
    else Data.windows ba l d.
Proof.
  unfold Data.windows. rewrite lookup_insert. by case_decide.
Qed.

Lemma windows_init_location ba loc l d :
  Data.windows (Data.init_location ba loc) l d = Data.windows ba l d.
Proof.
  unfold Data.init_location. destruct (ba !! loc) eqn:E; [done|].
  rewrite windows_insert. case_decide as H; [|done]. subst.
  unfold Data.windows. by rewrite E.
Qed.

Lemma windows_init_day ba loc day l d :
  Data.windows (Data.init_day ba loc day) l d = Data.windows ba l d.
Proof.
  unfold Data.init_day. destruct (ba !! loc) as [days|] eqn:E; [|done].
  destruct (days !! day) eqn:E'; [done|].
  rewrite windows_insert. case_decide as H; [|done]. subst.
  unfold Data.windows. rewrite E. simpl.
  rewrite lookup_insert. case_decide; [|done]. subst. by rewrite E'.
Qed.

Lemma windows_push ba loc day t l d :
  is_Some (ba !! loc) →
  Data.windows (Data.push_window ba loc day t) l d
  = if decide (loc = l ∧ day = d) then Data.windows ba loc day ++ [t]
    else Data.windows ba l d.
Proof.
  intros [days E]. unfold Data.push_window. rewrite E.
  rewrite windows_insert. case_decide as H1.
  - subst. rewrite lookup_insert. case_decide as H2.
    + subst. by rewrite decide_True.
    + rewrite decide_False by naive_solver.
      unfold Data.windows. by rewrite E.
  - by rewrite decide_False by naive_solver.
Qed.

(** The locations only grow in number. *)
Lemma init_location_is_Some ba loc l :
  is_Some (ba !! l) ∨ l = loc → is_Some (Data.init_location ba loc !! l).
Proof.
  unfold Data.init_location. intros H.
  destruct (ba !! loc) eqn:E.
  - destruct H as [H| ->]; [done|]. by rewrite E.
  - rewrite lookup_insert. case_decide; [done|]. naive_solver.
Qed.

Lemma init_day_is_Some ba loc day l :
  is_Some (ba !! l) → is_Some (Data.init_day ba loc day !! l).
Proof.
  unfold Data.init_day. intros H.
  destruct (ba !! loc) as [days|] eqn:E; [|done].
  destruct (days !! day); [done|].
  rewrite lookup_insert. by case_decide.
Qed.

Lemma push_window_is_Some ba loc day t l :
  is_Some (ba !! l) → is_Some (Data.push_window ba loc day t !! l).
Proof.
  unfold Data.push_window. intros H.
  destruct (ba !! loc) as [days|] eqn:E; [|done].
  rewrite lookup_insert. by case_decide.
Qed.

Lemma findIndex_covered ba loc day o c :
  0 ≤ JS.findIndex (λ t, open t = o ∧ close t = c)
        (Data.windows ba loc day)
  ↔ Spec.covered ba loc day o c.
Proof.
  unfold JS.findIndex, Spec.covered.
  destruct (list_find _ _) as [[i t]|] eqn:E.
  - apply list_find_Some in E as (Hi & Ht & _).
    split; [|lia]. intros _. exists t. split; [|done].
    by eapply list_elem_of_lookup_2.
  - split; [lia|]. intros (t & Hin & Ho & Hc).
    rewrite list_find_None, Forall_forall in E. by destruct (E t Hin).
Qed.

(** *** Growth *)

Lemma grows_refl ba : Spec.grows ba ba.
Proof. by intros ???. Qed.

Lemma grows_trans ba1 ba2 ba3 :
  Spec.grows ba1 ba2 → Spec.grows ba2 ba3 → Spec.grows ba1 ba3.
Proof. intros H1 H2 ????. by apply H2, H1. Qed.

Lemma covered_grows ba ba' loc day o c :
  Spec.grows ba ba' → Spec.covered ba loc day o c →
  Spec.covered ba' loc day o c.
Proof. intros Hg (t & Hin & Ho & Hc). exists t. split; [by apply Hg|done]. Qed.

(** A loop that only adds windows: what holds of the availability is
    kept, and what each round achieves lasts to the end. *)
Lemma foldl_grows {A} (f : Availability → A → Availability)
    (Good : Availability → Prop) (Done : A → Availability → Prop) :
  (∀ ba x, Good ba →
     Good (f ba x) ∧ Spec.grows ba (f ba x) ∧ Done x (f ba x)) →
  (∀ x ba ba', Done x ba → Spec.grows ba ba' → Done x ba') →
  ∀ (xs : list A) ba, Good ba →
    Good (foldl f ba xs) ∧ Spec.grows ba (foldl f ba xs) ∧
    ∀ x, x ∈ xs → Done x (foldl f ba xs).
Proof.
  intros Hstep Hmono. induction xs as [|x xs IH]; intros ba Hgood; simpl.
  - split_and!; [done|apply grows_refl|]. intros x Hx.
    by apply not_elem_of_nil in Hx.
  - destruct (Hstep ba x Hgood) as (Hg1 & Hgr1 & Hd1).
    destruct (IH (f ba x) Hg1) as (Hg2 & Hgr2 & Hd2).
    split_and!; [done|by eapply grows_trans|].
    intros y [->|Hy]%elem_of_cons; [by eapply Hmono|by apply Hd2].
Qed.

(** *** Adding a window that the day lacks *)

(** What adding the window [t] to a day that has no window with its key
    does to the two properties, where [t] is flagged as the appointments
    demand. *)
Lemma push_flagged (appts : list Appt) ba ba' loc day t :
  (∀ l d, Data.windows ba' l d
          = if decide (loc = l ∧ day = d)
            then Data.windows ba loc day ++ [t]
            else Data.windows ba l d) →
  ¬ Spec.covered ba loc day (open t) (close t) →
  (∃ b, booked t = Some b ∧
        (b = true ↔
         ∃ a, a ∈ appts ∧ Spec.matches a loc day (open t) (close t))) →
  Spec.flagged appts ba → Spec.flagged appts ba'.
Proof.
  intros HW Hnew Hflag Hold l d. rewrite HW.
  destruct (Hold l d) as [Hf Hnd].
  case_decide as E; [|done]. destruct E as [<- <-]. split.
  - intros t' [Hin| ->%list_elem_of_singleton]%elem_of_app; [by apply Hf|].
    done.
  - rewrite fmap_app. apply NoDup_app. split_and!; [done| |].
    + intros k (t1 & -> & Hin)%list_elem_of_fmap
               [= Ho Hc]%list_elem_of_singleton.
      apply Hnew. by exists t1.
    + simpl. apply NoDup_singleton.
Qed.

Lemma push_grows ba ba' loc day t :
  (∀ l d, Data.windows ba' l d
          = if decide (loc = l ∧ day = d)
            then Data.windows ba loc day ++ [t]
            else Data.windows ba l d) →
  Spec.grows ba ba' ∧ Spec.covered ba' loc day (open t) (close t).
Proof.
  intros HW. split.
  - intros l d t' Hin. rewrite HW. case_decide as E; [|done].
    destruct E as [<- <-]. apply elem_of_app. by left.
  - exists t. rewrite HW, decide_True by done. split; [|done].
    apply elem_of_app. right. by apply list_elem_of_singleton.
Qed.

Lemma flagged_ext (appts : list Appt) ba ba' :
  (∀ l d, Data.windows ba' l d = Data.windows ba l d) →
  Spec.flagged appts ba → Spec.flagged appts ba'.
Proof. intros HW H l d. rewrite HW. apply H. Qed.

Lemma covered_ext ba ba' loc day o c :
  (∀ l d, Data.windows ba' l d = Data.windows ba l d) →
  Spec.covered ba' loc day o c ↔ Spec.covered ba loc day o c.
Proof. intros HW. unfold Spec.covered. by rewrite HW. Qed.

(** *** The loop over the appointments *)

Lemma book_step (P : list Appt) ba (a : Appt) :
  (∀ l d t, t ∈ Data.windows ba l d → booked t = Some true) →
  Spec.flagged P ba → Spec.all_booked P ba →
  (∀ l d t, t ∈ Data.windows (Data.book ba a) l d →
     booked t = Some true) ∧
  Spec.flagged (P ++ [a]) (Data.book ba a) ∧
  Spec.all_booked (P ++ [a]) (Data.book ba a).
Proof.
  intros Htrue Hflag Hall.
  set (loc := location_name a). set (day := time_day a).
  set (ba1 := Data.init_day (Data.init_location ba loc) loc day).
  assert (∀ l d, Data.windows ba1 l d = Data.windows ba l d) as HW1.
  { intros l d. unfold ba1.
    by rewrite windows_init_day, windows_init_location. }
  assert (is_Some (ba1 !! loc)) as Hloc.
  { apply init_day_is_Some, init_location_is_Some. by right. }
  assert (Spec.flagged (P ++ [a]) ba1) as Hflag1.
  { apply (flagged_ext _ ba); [done|]. intros l d.
    destruct (Hflag l d) as [Hf Hnd]. split; [|done].
    intros t Hin. exists true. split; [by eapply Htrue|].
    split; [|done]. intros _.
    destruct (Hf t Hin) as (b & Hb & Hiff).
    rewrite (Htrue l d t Hin) in Hb. injection Hb as <-.
    destruct (proj1 Hiff eq_refl) as (a' & Ha' & Hm).
    exists a'. split; [|done]. apply elem_of_app. by left. }
  assert (Spec.all_booked P ba1) as Hall1.
  { intros a' Ha'. apply (covered_ext ba1 ba); [done|]. by apply Hall. }
  unfold Data.book. fold loc day ba1.
  case_bool_decide as Hcov.
  - apply findIndex_covered in Hcov. split_and!.
    + intros l d t. rewrite HW1. apply Htrue.
    + done.
    + intros a' [Ha'| ->%list_elem_of_singleton]%elem_of_app;
        [by apply Hall1|done].
  - rewrite findIndex_covered in Hcov.
    set (new := {| open := time_from a; close := time_to a;
                   booked := Some true |}).
    pose proof (λ l d, windows_push ba1 loc day new l d Hloc) as HW.
    destruct (push_grows _ _ _ _ _ HW) as [Hgrow Hnew].
    split_and!.
    + intros l d t. rewrite HW. case_decide as E.
      * rewrite HW1.
        intros [Hin| ->%list_elem_of_singleton]%elem_of_app; [|done].
        by eapply Htrue.
      * rewrite HW1. apply Htrue.
    + apply (push_flagged _ ba1 _ loc day new); try done.
      exists true. split; [done|]. split; [|done]. intros _.
      exists a. split; [|done]. apply elem_of_app. right.
      by apply list_elem_of_singleton.
    + intros a' [Ha'| ->%list_elem_of_singleton]%elem_of_app; [|done].
      eapply covered_grows; [done|]. by apply Hall1.
Qed.

Lemma book_fold (appts : list Appt) : ∀ (P : list Appt) ba,
  (∀ l d t, t ∈ Data.windows ba l d → booked t = Some true) →
  Spec.flagged P ba → Spec.all_booked P ba →
  Spec.flagged (P ++ appts) (foldl Data.book ba appts) ∧
  Spec.all_booked (P ++ appts) (foldl Data.book ba appts).
Proof.
  induction appts as [|a appts IH]; intros P ba Htrue Hflag Hall; simpl.
  - by rewrite app_nil_r.
  - destruct (book_step P ba a Htrue Hflag Hall) as (H1 & H2 & H3).
    rewrite cons_middle, app_assoc. by apply IH.
Qed.

Lemma windows_empty l d : Data.windows ∅ l d = [].
Proof. unfold Data.windows. by rewrite lookup_empty. Qed.

Lemma book_all (appts : list Appt) :
  Spec.flagged appts (foldl Data.book ∅ appts) ∧
  Spec.all_booked appts (foldl Data.book ∅ appts).
Proof.
  apply (book_fold appts []).
  - intros l d t. rewrite windows_empty. by intros ?%not_elem_of_nil.
  - intros l d. rewrite windows_empty. split; [|constructor].
    by intros t ?%not_elem_of_nil.
  - by intros a ?%not_elem_of_nil.
Qed.

(** *** The loops over the existing availability *)

Section existing.

Variable appts : list Appt.

Lemma keep_timeslot_step loc day ba s :
  Spec.kept appts (Some loc) ba →
  Spec.kept appts (Some loc) (Data.keep_timeslot loc day ba s) ∧
  Spec.grows ba (Data.keep_timeslot loc day ba s) ∧
  Spec.covered (Data.keep_timeslot loc day ba s) loc day
    (open s) (close s).
Proof.
  intros (Hflag & Hall & Hloc). unfold Data.keep_timeslot.
  case_bool_decide as Hcov.
  - assert (¬ Spec.covered ba loc day (open s) (close s)) as Hno.
    { rewrite <-findIndex_covered. lia. }
    set (new := {| open := open s; close := close s;
                   booked := Some false |}).
    pose proof (λ l d, windows_push ba loc day new l d
                         (Hloc loc eq_refl)) as HW.
    destruct (push_grows _ _ _ _ _ HW) as [Hgrow Hnew].
    split_and!; [split_and!|done..].
    + apply (push_flagged _ ba _ loc day new); try done.
      exists false. split; [done|]. split; [done|].
      intros (a & Ha & Hl & Hd & Ho & Hc). destruct Hno.
      specialize (Hall a Ha). by rewrite Hl, Hd, Ho, Hc in Hall.
    + intros a Ha. eapply covered_grows; [done|]. by apply Hall.
    + intros l [= <-]. by apply push_window_is_Some, Hloc.
  - split_and!; [by split_and!|apply grows_refl|].
    apply findIndex_covered. lia.
Qed.

Lemma keep_day_step loc ba (day : string * list Timeslot) :
  Spec.kept appts (Some loc) ba →
  Spec.kept appts (Some loc) (Data.keep_day loc ba day) ∧
  Spec.grows ba (Data.keep_day loc ba day) ∧
  ∀ s, s ∈ day.2 →
    Spec.covered (Data.keep_day loc ba day) loc day.1 (open s) (close s).
Proof.
  intros (Hflag & Hall & Hloc). unfold Data.keep_day.
  set (ba1 := Data.init_day ba loc day.1).
  assert (∀ l d, Data.windows ba1 l d = Data.windows ba l d) as HW1.
  { intros l d. apply windows_init_day. }
  assert (Spec.kept appts (Some loc) ba1) as Hgood1.
  { split_and!.
    - by apply (flagged_ext _ ba).
    - intros a Ha. apply (covered_ext ba1 ba); [done|]. by apply Hall.
    - intros l [= <-]. by apply init_day_is_Some, Hloc. }
  destruct (foldl_grows (Data.keep_timeslot loc day.1) (Spec.kept appts (Some loc))
              (λ s ba, Spec.covered ba loc day.1 (open s) (close s))
              (keep_timeslot_step loc day.1)
              (λ s b b' Hc Hg, covered_grows b b' _ _ _ _ Hg Hc)
              day.2 ba1 Hgood1) as (Hg & Hgr & Hd).
  split_and!; [done| |done].
  eapply grows_trans; [|done]. intros l d t. by rewrite HW1.
Qed.

Lemma keep_location_step ba
    (loc : string * gmap string (list Timeslot)) :
  Spec.kept appts None ba →
  Spec.kept appts None (Data.keep_location ba loc) ∧
  Spec.grows ba (Data.keep_location ba loc) ∧
  ∀ day ts s, loc.2 !! day = Some ts → s ∈ ts →
    Spec.covered (Data.keep_location ba loc) loc.1 day
      (open s) (close s).
Proof.
  intros (Hflag & Hall & _). unfold Data.keep_location.
  set (ba1 := Data.init_location ba loc.1).
  assert (∀ l d, Data.windows ba1 l d = Data.windows ba l d) as HW1.
  { intros l d. apply windows_init_location. }
  assert (Spec.kept appts (Some loc.1) ba1) as Hgood1.
  { split_and!.
    - by apply (flagged_ext _ ba).
    - intros a Ha. apply (covered_ext ba1 ba); [done|]. by apply Hall.
    - intros l [= <-]. apply init_location_is_Some. by right. }
  destruct (foldl_grows (Data.keep_day loc.1) (Spec.kept appts (Some loc.1))
              (λ e ba, ∀ s, s ∈ e.2 →
                 Spec.covered ba loc.1 e.1 (open s) (close s))
              (keep_day_step loc.1)
              (λ e b b' Hc Hg s Hs,
                 covered_grows b b' _ _ _ _ Hg (Hc s Hs))
              (map_to_list loc.2) ba1 Hgood1)
    as ((Hf & Ha & _) & Hgr & Hd).
  split_and!; [by split_and!| |].
  - eapply grows_trans; [|done]. intros l d t. by rewrite HW1.
  - intros day ts s Hday Hs.
    apply (Hd (day, ts)); [|done]. by apply elem_of_map_to_list.
Qed.

Lemma keep_all ba (existing : Availability) :
  Spec.flagged appts ba → Spec.all_booked appts ba →
  let ba' := foldl Data.keep_location ba (map_to_list existing) in
  Spec.flagged appts ba' ∧ Spec.all_booked appts ba' ∧
  ∀ loc days day ts s,
    existing !! loc = Some days → days !! day = Some ts → s ∈ ts →
    Spec.covered ba' loc day (open s) (close s).
Proof.
  intros Hflag Hall.
  destruct (foldl_grows Data.keep_location (Spec.kept appts None)
              (λ e ba, ∀ day ts s, e.2 !! day = Some ts → s ∈ ts →
                 Spec.covered ba e.1 day (open s) (close s))
              keep_location_step
              (λ e b b' Hc Hg day ts s Hd Hs,
                 covered_grows b b' _ _ _ _ Hg (Hc day ts s Hd Hs))
              (map_to_list existing) ba)
    as ((Hf & Ha & _) & _ & Hd); [by split_and!|].
  split_and!; [done..|].
  intros loc days day ts s Hloc Hday Hs.
  apply (Hd (loc, days)) with ts; [|done..].
  by apply elem_of_map_to_list.
Qed.

End existing.

(** *** The whole update *)

Lemma windows_elem ba loc day t :
  t ∈ Data.windows ba loc day →
  ∃ days ts, ba !! loc = Some days ∧ days !! day = Some ts ∧ t ∈ ts.
Proof.
  unfold Data.windows. destruct (ba !! loc) as [days|] eqn:E1; simpl.
  - destruct (days !! day) as [ts|] eqn:E2; simpl.
    + intros Hin. by exists days, ts.
    + by intros ?%not_elem_of_nil.
  - by intros ?%not_elem_of_nil.
Qed.

Lemma windows_lookup ba loc day days ts :
  ba !! loc = Some days → days !! day = Some ts →
  Data.windows ba loc day = ts.
Proof. intros E1 E2. unfold Data.windows. rewrite E1. simpl. by rewrite E2. Qed.

Lemma bookedAvailability_spec (appts : list Appt)
    (existing : option Availability) :
  Spec.flagged appts (Data.bookedAvailability appts existing) ∧
  Spec.all_booked appts (Data.bookedAvailability appts existing) ∧
  ∀ loc day s,
    s ∈ Spec.existing_windows existing loc day →
    Spec.covered (Data.bookedAvailability appts existing) loc day
      (open s) (close s).
Proof.
  destruct (book_all appts) as [Hflag Hall].
  destruct (keep_all appts _ (default ∅ existing) Hflag Hall)
    as (Hf & Ha & Hc).
  split_and!; [done..|].
  intros loc day s Hs. unfold Spec.existing_windows in Hs.
  destruct existing as [avail|]; simpl in Hs;
    [|by apply not_elem_of_nil in Hs].
  apply windows_elem in Hs as (days & ts & E1 & E2 & Hin).
  by apply (Hc loc days day ts s).
Qed.



(** The windows of the sample tutor's Monday after the update. *)
Example updateUserAvailability_sample :
  Data.windows
    (Data.bookedAvailability [Spec.sample_appt]
       (Some Spec.sample_availability))
    "Gunn Academic Center" "Monday"
  = [ {| open := "2:45 PM"; close := "3:45 PM"; booked := Some true |};
      {| open := "A Period"; close := "A Period"; booked := Some false |} ].
Proof. vm_compute. reflexivity. Qed.

(** Without a uid the user is left as it was, with a warning. *)
Lemma updateUserAvailability_no_uid (app : App) (u : User) :
  JS.falsy (uid u) = true →
  ∃ line, Data.updateUserAvailability app u = ([ConsoleWarn line], inr u).
Proof.
  intros H. unfold Data.updateUserAvailability. rewrite H. by eexists.
Qed.

End availability.

(** ** More on [Data.post] *)

Section post_effects.

(** [post] never touches Firestore. When the token cannot be fetched it
    sends nothing, logs nothing and rejects with the error of the token.
    With a token it sends exactly one request, and it writes one line with
    [console.error] exactly when it rejects. *)
Theorem post_effects (app : App) (action : string) (d : value) :
  filter Spec.is_firestore (trace (Data.post app action d)) = [] ∧
  (∀ e, getIdToken app = inl e → Data.post app action d = ([], inl e)) ∧
  (∀ tok, getIdToken app = inr tok →
     requests (trace (Data.post app action d))
     = [Data.post_request app action tok d] ∧
     Spec.console_errors (trace (Data.post app action d))
     = match outcome (Data.post app action d) with
       | inl _ => ["[ERROR] During " +:+ action +:+ " REST API call."]
       | inr _ => []
       end).
Proof.
  split_and!.
  - by destruct (post_trace_cases app action d)
      as [->|(tok & _ & [->| ->])].
  - intros e He. by apply post_no_token.
  - intros tok Htok. split; [by apply post_requests|].
    rewrite (post_unfold _ _ _ _ Htok). cbv zeta.
    destruct (axios app _) as [err|res]; [done|].
    by destruct (outcome (Data.post_then res)).
Qed.

Lemma post_effects_witness :
  Data.post Spec.signed_out_app "clockIn" VUndefined
  = ([], inl (Rejected "auth/network-request-failed")).
Proof.
  apply (proj1 (proj2 (post_effects Spec.signed_out_app "clockIn"
                         VUndefined))).
  reflexivity.
Defined.

End post_effects.

(** ** More on the user documents *)

Section user_documents.

Lemma indexOf_absent (s pat : string) :
  pat ≠ "" → ¬ Spec.occurs pat s → ¬ 0 ≤ JS.indexOf s pat.
Proof. intros Hpat Hno. apply indexOf_none in Hno; [lia|done]. Qed.

Lemma falsy_Some (i : string) : i ≠ "" → JS.falsy (Some i) = false.
Proof. intros H. by apply truthy_falsy, truthy_Some. Qed.

(** For an id that is not empty and has no '@', [getUser] reads the
    document users/{id} once and touches nothing else: it returns the
    data of the document when it exists, throws 'User (id) did not exist.'
    when it does not, and rejects as Firestore does when the read fails.
    [deleteUser] deletes users/{id} and does nothing else. *)
Theorem getUser_deleteUser_by_id (app : App) (i : string) :
  i ≠ "" → ¬ Spec.occurs "@" i →
  Data.getUser app (Some i)
  = ([FsGet ["users"; i]],
     match users app i with
     | inl e => inl e
     | inr (Some doc) => inr doc
     | inr None => inl (Error ("User (" +:+ i +:+ ") did not exist."))
     end) ∧
  Data.deleteUser app (Some i) = ([FsDelete ["users"; i]], inr ()).
Proof.
  intros Hne Hat. unfold Data.getUser, Data.deleteUser.
  rewrite (falsy_Some _ Hne).
  rewrite bool_decide_eq_false_2 by by apply indexOf_absent.
  split; [|done]. simpl.
  destruct (users app i) as [e|[doc|]]; done.
Qed.

Lemma getUser_deleteUser_by_id_witness :
  Data.getUser (Spec.sample_app (inr VUndefined)) (Some "u7")
  = ([FsGet ["users"; "u7"]], inl (Error "User (u7) did not exist.")) ∧
  Data.deleteUser (Spec.sample_app (inr VUndefined)) (Some "u7")
  = ([FsDelete ["users"; "u7"]], inr ()).
Proof.
  apply (getUser_deleteUser_by_id (Spec.sample_app (inr VUndefined)) "u7").
  - discriminate.
  - intros Hocc. apply (indexOf_occurs "u7" "@") in Hocc; [|discriminate].
    vm_compute in Hocc. by destruct Hocc.
Defined.

End user_documents.

(** ** [Data.updateUserLocation] and [Data.updateUser] *)

Section user_location.

Lemma concatArr_members (A B : list string) :
  NoDup (Data.concatArr A B) ∧
  ∀ x, x ∈ Data.concatArr A B ↔ (x ∈ A ∨ x ∈ B) ∧ x ≠ "".
Proof.
  rewrite concatArr_foldl.
  destruct (foldl_push_spec (A ++ B) []) as (r' & -> & Hnd & Hin & Hcov & _).
  simpl. split; [done|]. intros x. split.
  - intros Hx. apply Hin in Hx as (_ & ? & ?). set_solver.
  - intros [Hx Hne]. destruct (Hcov x) as [H|H]; [set_solver|done|..|done].
    by apply not_elem_of_nil in H.
Qed.

Lemma foldl_last {A B} (g : B → A) (a : A) (l : list B) :
  foldl (λ _ x, g x) a l = from_option g a (last l).
Proof.
  revert a. induction l as [|x l IH]; intros a; simpl; [done|].
  rewrite IH. destruct l as [|y l]; [done|].
  change (last (x :: y :: l)) with (last (y :: l)).
  destruct (last (y :: l)) eqn:E; [done|]. by apply last_None in E.
Qed.

Lemma elem_of_keys {V} (m : gmap string V) (k : string) :
  k ∈ (map_to_list m).*1 ↔ is_Some (m !! k).
Proof.
  rewrite list_elem_of_fmap. split.
  - intros ([k' v] & -> & Hin). apply elem_of_map_to_list in Hin.
    by exists v.
  - intros [v Hv]. exists (k, v). split; [done|].
    by apply elem_of_map_to_list.
Qed.

Lemma updateUserLocation_run (app : App) (u : User)
    (avail : Availability) :
  availability u = Some avail →
  ∃ u', Data.updateUserLocation app u = ([], inr u') ∧
    uid u' = uid u ∧ id u' = id u ∧ email u' = email u ∧
    name u' = name u ∧ type u' = type u ∧
    availability u' = Some avail ∧
    NoDup (locations u') ∧
    (∀ l, l ∈ locations u' ↔
          l ≠ "" ∧ (is_Some (avail !! l) ∨ l = app_location_name app)) ∧
    (avail = ∅ → location u' = location u) ∧
    (avail ≠ ∅ →
     ∃ l, location u' = Some l ∧
          ((is_Some (avail !! l) ∧ l ∈ locationNames app) ∨
           l = app_location_name app)).
Proof.
  intros Hsome. unfold Data.updateUserLocation. rewrite Hsome.
  eexists. split; [reflexivity|]. simpl.
  destruct (concatArr_members (map_to_list avail).*1
              [app_location_name app]) as [Hnd Hmem].
  split_and!; try done.
  - intros l. rewrite Hmem, elem_of_keys, list_elem_of_singleton.
    tauto.
  - intros ->. by rewrite map_to_list_empty.
  - intros Hne. rewrite foldl_last.
    destruct (last (map_to_list avail).*1) as [k|] eqn:Hlast.
    + simpl. eexists. split; [reflexivity|].
      case_bool_decide as Hk; [|by right]. left. split.
      * apply elem_of_keys. apply last_Some in Hlast as [l' ->].
        apply elem_of_app. right. by apply list_elem_of_singleton.
      * destruct (decide (k ∈ locationNames app)) as [|Hn]; [done|].
        apply Array_indexOf_neg in Hn. lia.
    + apply last_None in Hlast. apply fmap_nil_inv in Hlast.
      by apply map_to_list_empty_iff in Hlast.
Qed.

(** [updateUserLocation] throws a [TypeError] for a user without an
    availability. Otherwise it changes two fields only: [locations]
    becomes the non-empty names among the locations of the availability
    and the app's location, each once; and [location], which stays as it
    was when the availability is empty, becomes a location of the
    availability that the app knows, or else the app's location. *)
Theorem updateUserLocation_fields (app : App) (u : User) :
  (availability u = None →
   ∃ e, Data.updateUserLocation app u = ([], inl (TypeError e))) ∧
  (∀ avail : Availability, availability u = Some avail →
   ∃ u', Data.updateUserLocation app u = ([], inr u') ∧
     uid u' = uid u ∧ id u' = id u ∧ email u' = email u ∧
     name u' = name u ∧ type u' = type u ∧
     availability u' = Some avail ∧
     NoDup (locations u') ∧
     (∀ l, l ∈ locations u' ↔
           l ≠ "" ∧ (is_Some (avail !! l) ∨ l = app_location_name app)) ∧
     (avail = ∅ → location u' = location u) ∧
     (avail ≠ ∅ →
      ∃ l, location u' = Some l ∧
           ((is_Some (avail !! l) ∧ l ∈ locationNames app) ∨
            l = app_location_name app))).
Proof.
  split.
  - intros Hnone. unfold Data.updateUserLocation. rewrite Hnone.
    by eexists.
  - intros avail Hsome. by apply updateUserLocation_run.
Qed.

Lemma updateUserLocation_fields_witness :
  ∃ u', Data.updateUserLocation (Spec.sample_app (inr VUndefined))
          Spec.sample_tutor = ([], inr u') ∧
        location u' = Some "Gunn Academic Center" ∧
        locations u' = ["Gunn Academic Center"].
Proof.
  destruct (proj2 (updateUserLocation_fields
                     (Spec.sample_app (inr VUndefined)) Spec.sample_tutor)
              Spec.sample_availability eq_refl)
    as (u' & Hrun & _).
  exists u'. split; [exact Hrun|].
  vm_compute in Hrun. injection Hrun as <-. split; reflexivity.
Defined.

Lemma bind_value {A B} (t : list event) (a : A) (k : A → M B) :
  bind (t, inr a) k = (t ++ (k a).1, (k a).2).
Proof. unfold bind. by destruct (k a). Qed.

Lemma updateUserAvailability_run (app : App) (u : User) (i : string) :
  uid u = Some i → i ≠ "" →
  Data.updateUserAvailability app u
  = match appointments app i with
    | inl e => ([FsGet ["users"; i; "appointments"]], inl e)
    | inr appts =>
        ([FsGet ["users"; i; "appointments"]],
         inr (Data.set_availability u
                (Some (Data.bookedAvailability appts (availability u)))))
    end.
Proof.
  intros Huid Hne. unfold Data.updateUserAvailability.
  rewrite Huid, (falsy_Some _ Hne). simpl.
  by destruct (appointments app i).
Qed.



End user_location.

(** ** More on [Data.concatArr] *)

Section concatArr_more.

Lemma foldl_push_absorb (l : list string) : ∀ acc,
  (∀ x, x ∈ l → x ≠ "" → x ∈ acc) →
  foldl Data.concatArr_push acc l = acc.
Proof.
  induction l as [|y l IH]; intros acc Hin; simpl; [done|].
  rewrite concatArr_push_eq. rewrite decide_False.
  - apply IH. intros x Hx. apply Hin. by apply list_elem_of_further.
  - intros [Hy Hne]. apply Hy, Hin; [apply list_elem_of_here|done].
Qed.

Lemma foldl_push_clean (l : list string) : ∀ acc,
  NoDup (acc ++ l) → ("" ∉ l) →
  foldl Data.concatArr_push acc l = acc ++ l.
Proof.
  induction l as [|y l IH]; intros acc Hnd Hne; simpl.
  - by rewrite app_nil_r.
  - rewrite concatArr_push_eq. rewrite decide_True.
    + rewrite IH; [by rewrite <-app_assoc| |].
      * by rewrite <-app_assoc.
      * intros H. apply Hne. by apply list_elem_of_further.
    + apply NoDup_app in Hnd as (_ & Hdis & _). split.
      * intros Hy. apply (Hdis y Hy), list_elem_of_here.
      * intros ->. apply Hne, list_elem_of_here.
Qed.

(** When the first array has no duplicate and no empty string,
    [concatArr] keeps it as it is at the front of the result, followed by
    the items that only the second array has. *)
Theorem concatArr_clean_prefix (A B : list string) :
  NoDup A → ("" ∉ A) →
  ∃ r, Data.concatArr A B = A ++ r ∧ NoDup r ∧
       ∀ x, x ∈ r ↔ x ∈ B ∧ (x ∉ A) ∧ x ≠ "".
Proof.
  intros Hnd Hne. unfold Data.concatArr.
  rewrite (foldl_push_clean A []) by done. simpl.
  destruct (foldl_push_spec B A) as (r & -> & Hr & Hin & Hcov & _).
  exists r. split_and!; [done..|].
  intros x. split.
  - intros Hx. apply Hin in Hx. tauto.
  - intros (HB & HA & Hx). by destruct (Hcov x HB Hx).
Qed.

Lemma concatArr_clean_prefix_witness :
  ∃ r, Data.concatArr ["Gunn"; "Paly"] ["Paly"; ""; "JLS"]
       = ["Gunn"; "Paly"] ++ r ∧ NoDup r ∧
       ∀ x, x ∈ r ↔ x ∈ ["Paly"; ""; "JLS"] ∧ (x ∉ ["Gunn"; "Paly"]) ∧ x ≠ "".
Proof.
  apply (concatArr_clean_prefix ["Gunn"; "Paly"] ["Paly"; ""; "JLS"]).
  - apply (bool_decide_unpack (NoDup ["Gunn"; "Paly"])). reflexivity.
  - apply (bool_decide_unpack ("" ∉ ["Gunn"; "Paly"])). reflexivity.
Defined.

(** Merging an array into a result that already holds it changes
    nothing: the result of [concatArr] absorbs both of its arguments, and
    the empty array. *)
Theorem concatArr_absorbs (A B : list string) :
  Data.concatArr (Data.concatArr A B) [] = Data.concatArr A B ∧
  Data.concatArr (Data.concatArr A B) A = Data.concatArr A B ∧
  Data.concatArr (Data.concatArr A B) B = Data.concatArr A B.
Proof.
  destruct (concatArr_members A B) as [Hnd Hmem].
  assert (foldl Data.concatArr_push [] (Data.concatArr A B)
          = Data.concatArr A B) as Hclean.
  { apply (foldl_push_clean _ []); [done|]. rewrite Hmem. tauto. }
  assert (∀ l, (∀ x, x ∈ l → x ≠ "" → x ∈ Data.concatArr A B) →
               Data.concatArr (Data.concatArr A B) l = Data.concatArr A B)
    as Habs.
  { intros l Hl. generalize dependent (Data.concatArr A B). intros R _ _ HR Hl.
    unfold Data.concatArr. rewrite HR. by apply foldl_push_absorb. }
  split_and!; apply Habs; intros x Hx Hne.
  - by apply elem_of_nil in Hx.
  - apply Hmem. tauto.
  - apply Hmem. tauto.
Qed.

End concatArr_more.

(** ** More on the timer and on the retries *)

Section more_runs.

Lemma update_well_formed (inputs : ViewApptDialog.Inputs)
    (current total : Spec.Clock) :
  Spec.well_formed (ViewApptDialog.Current inputs) current →
  Spec.well_formed (ViewApptDialog.Total inputs) total →
  ∃ inputs' current' total',
    ViewApptDialog.update inputs = Some inputs' ∧
    Spec.well_formed (ViewApptDialog.Current inputs') current' ∧
    Spec.well_formed (ViewApptDialog.Total inputs') total' ∧
    Spec.centiseconds current' = (Spec.centiseconds current + 1)%N ∧
    Spec.centiseconds total' = (Spec.centiseconds total + 1)%N.
Proof.
  intros Hc Ht.
  destruct (advance_well_formed _ _ Hc) as (c' & kc & Ec & Wc & Cc).
  destruct (advance_well_formed _ _ Ht) as (t' & kt & Et & Wt & Ct).
  exists {| ViewApptDialog.Current := c'; ViewApptDialog.Total := t' |},
         kc, kt.
  split_and!; try done.
  unfold ViewApptDialog.update. by rewrite Ec, Et.
Qed.



(** The displays after two and a half seconds on a timer that started
    one and a half seconds before the hour. *)
Example ticks_sample :
  Spec.ticks 250
    {| ViewApptDialog.Current := "0:0:0.00";
       ViewApptDialog.Total := "0:59:58.50" |}
  = Some {| ViewApptDialog.Current := "0:0:2.50";
            ViewApptDialog.Total := "1:0:1.0" |}.
Proof. vm_compute. reflexivity. Qed.

(** As long as the requests fail, the fetch of the account URL goes on:
    however many timers are followed, each of them has issued the request
    again and set the next timer of 5000 ms, and no URL is stored. *)
Theorem getAccountURL_keeps_retrying (app : App)
    (answers : nat → exn + string) :
  (∀ i, ∃ err, answers i = inl err) →
  ∀ timers a,
    requests (Payments.getAccountURL timers app answers a).1
    = replicate (S timers) (Payments.accountURL_request app) ∧
    Spec.timers (Payments.getAccountURL timers app answers a).1
    = replicate (S timers) 5000 ∧
    (Payments.getAccountURL timers app answers a).2 = None.
Proof.
  intros Hfail. induction timers as [|timers IH]; intros a;
    destruct (Hfail a) as [err Herr]; simpl; rewrite Herr; [done|].
  destruct (IH (S a)) as (Hreq & Htim & Hurl).
  destruct (Payments.getAccountURL timers app answers (S a)) as [t r].
  simpl in *. by rewrite Hreq, Htim, Hurl.
Qed.

Lemma getAccountURL_keeps_retrying_witness :
  requests
    (Payments.getAccountURL 4 (Spec.sample_app (inr VUndefined))
       Spec.always_fails 0).1
  = replicate 5 (Payments.accountURL_request
                   (Spec.sample_app (inr VUndefined))) ∧
  Spec.timers
    (Payments.getAccountURL 4 (Spec.sample_app (inr VUndefined))
       Spec.always_fails 0).1 = replicate 5 5000 ∧
  (Payments.getAccountURL 4 (Spec.sample_app (inr VUndefined))
     Spec.always_fails 0).2 = None.
Proof.
  apply (getAccountURL_keeps_retrying (Spec.sample_app (inr VUndefined))
           Spec.always_fails).
  intros i. by eexists.
Defined.

End more_runs.

(** ** Where the windows and the locations of the new availability come
    from *)

Section origin.

Implicit Types ba : Availability.
Implicit Types loc day l d : string.
Implicit Types t s : Timeslot.

Lemma foldl_inv {A B} (f : B → A → B) (P : B → Prop) (xs : list A) :
  ∀ b, P b → (∀ b x, x ∈ xs → P b → P (f b x)) → P (foldl f b xs).
Proof.
  induction xs as [|x xs IH]; intros b Hb Hstep; simpl; [done|].
  apply IH.
  - apply Hstep; [apply list_elem_of_here|done].
  - intros b' y Hy. apply Hstep. by apply list_elem_of_further.
Qed.

Lemma foldl_keys {A} (f : Availability → A → Availability)
    (k : A → string → Prop) (xs : list A) :
  (∀ ba x l, x ∈ xs → is_Some (f ba x !! l) ↔ is_Some (ba !! l) ∨ k x l) →
  ∀ ba l, is_Some (foldl f ba xs !! l)
          ↔ is_Some (ba !! l) ∨ ∃ x, x ∈ xs ∧ k x l.
Proof.
  induction xs as [|x xs IH]; intros Hstep ba l; simpl.
  - split; [by left|]. intros [H|(x & Hx & _)]; [done|].
    by apply elem_of_nil in Hx.
  - rewrite IH.
    + rewrite Hstep by apply list_elem_of_here. split.
      * intros [[H|H]|(y & Hy & H)]; [by left|right..].
        -- exists x. split; [apply list_elem_of_here|done].
        -- exists y. split; [by apply list_elem_of_further|done].
      * intros [H|(y & Hy & H)]; [by left; left|].
        apply elem_of_cons in Hy as [->|Hy]; [by left; right|].
        right. by exists y.
    + intros ba' y l' Hy. apply Hstep. by apply list_elem_of_further.
Qed.

(** *** The locations *)

Lemma init_location_keys ba loc l :
  is_Some (Data.init_location ba loc !! l) ↔ is_Some (ba !! l) ∨ l = loc.
Proof.
  unfold Data.init_location. destruct (ba !! loc) eqn:E.
  - split; [by left|]. intros [H| ->]; [done|]. by rewrite E.
  - rewrite lookup_insert. case_decide as H.
    + subst. split; [by right|done].
    + split; [by left|]. intros [H'|H']; [done|]. by subst.
Qed.

Lemma init_day_keys ba loc day l :
  is_Some (Data.init_day ba loc day !! l) ↔ is_Some (ba !! l).
Proof.
  unfold Data.init_day.
  destruct (ba !! loc) as [days|] eqn:E; [|done].
  destruct (days !! day); [done|].
  rewrite lookup_insert. case_decide as H; [|done].
  subst. rewrite E. split; done.
Qed.

Lemma push_window_keys ba loc day t l :
  is_Some (Data.push_window ba loc day t !! l) ↔ is_Some (ba !! l).
Proof.
  unfold Data.push_window.
  destruct (ba !! loc) as [days|] eqn:E; [|done].
  rewrite lookup_insert. case_decide as H; [|done].
  subst. rewrite E. split; done.
Qed.

Lemma book_keys ba (a : Appt) l :
  is_Some (Data.book ba a !! l)
  ↔ is_Some (ba !! l) ∨ l = location_name a.
Proof.
  unfold Data.book. cbv zeta. case_bool_decide.
  - by rewrite init_day_keys, init_location_keys.
  - by rewrite push_window_keys, init_day_keys, init_location_keys.
Qed.

Lemma keep_timeslot_keys loc day ba s l :
  is_Some (Data.keep_timeslot loc day ba s !! l) ↔ is_Some (ba !! l).
Proof.
  unfold Data.keep_timeslot. case_bool_decide; [|done].
  apply push_window_keys.
Qed.

Lemma keep_day_keys loc ba (day : string * list Timeslot) l :
  is_Some (Data.keep_day loc ba day !! l) ↔ is_Some (ba !! l).
Proof.
  unfold Data.keep_day. cbv zeta.
  rewrite (foldl_keys _ (λ _ _, False)).
  - rewrite init_day_keys. split; [|by left].
    intros [H|(x & _ & [])]. done.
  - intros ba' x l' _. rewrite keep_timeslot_keys. tauto.
Qed.

Lemma keep_location_keys ba
    (loc : string * gmap string (list Timeslot)) l :
  is_Some (Data.keep_location ba loc !! l)
  ↔ is_Some (ba !! l) ∨ l = loc.1.
Proof.
  unfold Data.keep_location. cbv zeta.
  rewrite (foldl_keys _ (λ _ _, False)).
  - rewrite init_location_keys. split; [|by left].
    intros [H|(x & _ & [])]. done.
  - intros ba' x l' _. rewrite keep_day_keys. tauto.
Qed.


(** *** The windows *)

Section within.

Variable Q : string → string → Timeslot → Prop.

Lemma within_init_location ba loc :
  Spec.within Q ba → Spec.within Q (Data.init_location ba loc).
Proof. intros H l d t. rewrite windows_init_location. apply H. Qed.

Lemma within_init_day ba loc day :
  Spec.within Q ba → Spec.within Q (Data.init_day ba loc day).
Proof. intros H l d t. rewrite windows_init_day. apply H. Qed.

Lemma within_push ba loc day t :
  Spec.within Q ba → Q loc day t →
  Spec.within Q (Data.push_window ba loc day t).
Proof.
  intros H Ht l d t'.
  destruct (ba !! loc) as [days|] eqn:E.
  - rewrite windows_push by done. case_decide as Hd; [|apply H].
    destruct Hd as [<- <-]. rewrite elem_of_app, list_elem_of_singleton.
    intros [H'| ->]; [by apply H|done].
  - unfold Data.push_window. rewrite E. apply H.
Qed.

Lemma within_book ba (a : Appt) :
  Spec.within Q ba →
  Q (location_name a) (time_day a)
    {| open := time_from a; close := time_to a; booked := Some true |} →
  Spec.within Q (Data.book ba a).
Proof.
  intros H Ha. unfold Data.book. cbv zeta. case_bool_decide.
  - by apply within_init_day, within_init_location.
  - apply within_push; [|done].
    by apply within_init_day, within_init_location.
Qed.

Lemma within_keep_timeslot loc day ba s :
  Spec.within Q ba →
  Q loc day {| open := open s; close := close s; booked := Some false |} →
  Spec.within Q (Data.keep_timeslot loc day ba s).
Proof.
  intros H Hs. unfold Data.keep_timeslot. case_bool_decide; [|done].
  by apply within_push.
Qed.

Lemma within_keep_day loc ba (day : string * list Timeslot) :
  Spec.within Q ba →
  (∀ s, s ∈ day.2 →
     Q loc day.1
       {| open := open s; close := close s; booked := Some false |}) →
  Spec.within Q (Data.keep_day loc ba day).
Proof.
  intros H Hs. unfold Data.keep_day. cbv zeta.
  apply foldl_inv; [by apply within_init_day|].
  intros ba' s Hin Hba'. apply within_keep_timeslot; [done|]. by apply Hs.
Qed.

Lemma within_keep_location ba
    (loc : string * gmap string (list Timeslot)) :
  Spec.within Q ba →
  (∀ day ts s, loc.2 !! day = Some ts → s ∈ ts →
     Q loc.1 day
       {| open := open s; close := close s; booked := Some false |}) →
  Spec.within Q (Data.keep_location ba loc).
Proof.
  intros H Hs. unfold Data.keep_location. cbv zeta.
  apply foldl_inv; [by apply within_init_location|].
  intros ba' [day ts] Hin Hba'. apply elem_of_map_to_list in Hin.
  apply within_keep_day; [done|]. intros s Hin'. by apply (Hs day ts).
Qed.

Lemma within_bookedAvailability (appts : list Appt)
    (existing : option Availability) :
  (∀ a, a ∈ appts →
     Q (location_name a) (time_day a)
       {| open := time_from a; close := time_to a;
          booked := Some true |}) →
  (∀ loc day s, s ∈ Spec.existing_windows existing loc day →
     Q loc day
       {| open := open s; close := close s; booked := Some false |}) →
  Spec.within Q (Data.bookedAvailability appts existing).
Proof.
  intros Ha Hs. unfold Data.bookedAvailability. cbv zeta.
  apply foldl_inv.
  - apply foldl_inv.
    + intros l d t. rewrite windows_empty. by intros ?%elem_of_nil.
    + intros ba a Hin Hba. apply within_book; [done|]. by apply Ha.
  - intros ba [loc days] Hin Hba. apply elem_of_map_to_list in Hin.
    apply within_keep_location; [done|]. simpl. intros day ts s E Hin'.
    apply Hs. unfold Spec.existing_windows.
    destruct existing as [m|]; simpl in *.
    + rewrite Hin. simpl. by rewrite E.
    + by rewrite lookup_empty in Hin.
Qed.

End within.

(** No window of the new availability is invented: a window of the
    result is either booked and matched by a fetched appointment, or free
    and one of the windows the user had at that location on that day. *)
Theorem bookedAvailability_origin (appts : list Appt)
    (existing : option Availability) loc day t :
  t ∈ Data.windows (Data.bookedAvailability appts existing) loc day →
  Spec.origin appts existing loc day t.
Proof.
  revert loc day t.
  apply (within_bookedAvailability (Spec.origin appts existing)).
  - intros a Ha. left. split; [done|]. by exists a.
  - intros l d s Hs. right. split; [done|]. by exists s.
Qed.

Lemma bookedAvailability_origin_witness :
  Spec.origin [Spec.sample_appt] (Some Spec.sample_availability)
    "Gunn Academic Center" "Monday"
    {| open := "A Period"; close := "A Period"; booked := Some false |}.
Proof.
  apply (bookedAvailability_origin [Spec.sample_appt]
           (Some Spec.sample_availability)).
  vm_compute. apply list_elem_of_further, list_elem_of_here.
Defined.

End origin.

(** ** [Data.combineMaps], [Data.cloneMap], [Data.getOther] *)

Section maps.

Context {V : Type}.

Implicit Types m r mapA mapB : gmap string V.

Lemma foldl_insert_lookup (l : list (string * V)) :
  NoDup l.*1 →
  ∀ r k,
    foldl (λ result e, <[e.1 := e.2]> result) r l !! k
    = match (list_to_map l : gmap string V) !! k with
      | Some v => Some v
      | None => r !! k
      end.
Proof.
  induction l as [|[k0 v0] l IH]; intros Hnd r k; simpl.
  - by rewrite lookup_empty.
  - apply NoDup_cons in Hnd as [Hk0 Hnd]. rewrite IH by done.
    rewrite !lookup_insert. case_decide as Hk.
    + subst. by rewrite (not_elem_of_list_to_map_1 _ _ Hk0).
    + done.
Qed.

Lemma assign_lookup r m k :
  Data.assign r m !! k
  = match m !! k with Some v => Some v | None => r !! k end.
Proof.
  unfold Data.assign.
  rewrite foldl_insert_lookup by apply NoDup_fst_map_to_list.
  by rewrite list_to_map_to_list.
Qed.

(** [combineMaps] gives priority to its second map: a key of [mapB] has
    the value of [mapB], any other key what it has in [mapA], so the
    result is the union of the two with [mapB] first; and [cloneMap]
    returns a map with the same keys and values. *)
Theorem combineMaps_priority mapA mapB :
  (∀ k v, mapB !! k = Some v → Data.combineMaps mapA mapB !! k = Some v) ∧
  (∀ k, mapB !! k = None →
        Data.combineMaps mapA mapB !! k = mapA !! k) ∧
  Data.combineMaps mapA mapB = mapB ∪ mapA ∧
  Data.cloneMap mapA = mapA.
Proof.
  assert (∀ k, Data.combineMaps mapA mapB !! k
               = match mapB !! k with
                 | Some v => Some v
                 | None => mapA !! k
                 end) as Hlk.
  { intros k. unfold Data.combineMaps. cbv zeta.
    rewrite !assign_lookup, lookup_empty.
    destruct (mapB !! k); [done|]. by destruct (mapA !! k). }
  split_and!.
  - intros k v E. by rewrite Hlk, E.
  - intros k E. by rewrite Hlk, E.
  - apply map_eq. intros k. rewrite Hlk, lookup_union.
    destruct (mapB !! k), (mapA !! k); done.
  - apply map_eq. intros k. unfold Data.cloneMap. cbv zeta.
    rewrite assign_lookup, lookup_empty. by destruct (mapA !! k).
Qed.

End maps.

Section getOther.

(** Of two attendees with different emails, [getOther] returns the one
    whose email is not that of the user it is given: the result is an
    attendee and never has the email of that user. Given the attendees
    themselves in place of a user, it returns the one whose email is not
    that of the signed-in user. *)
Theorem getOther_other (app : App) (a b : User) :
  email a ≠ email b →
  (∀ u, ∃ r, Data.getOther app (Data.OneUser u) [a; b] = inr (Some r) ∧
             r ∈ [a; b] ∧ email r ≠ email u) ∧
  (∀ attendees,
     ∃ r, Data.getOther app (Data.Attendees [a; b]) attendees
          = inr (Some r) ∧
          r ∈ [a; b] ∧ email r ≠ email (app_user app)).
Proof.
  intros Hne. split.
  - intros u. unfold Data.getOther. case_bool_decide as Hu.
    + exists b. split_and!; [done|set_solver|congruence].
    + exists a. split_and!; [done|set_solver|done].
  - intros attendees. unfold Data.getOther. case_bool_decide as Hu.
    + exists b. split_and!; [done|set_solver|congruence].
    + exists a. split_and!; [done|set_solver|done].
Qed.

Lemma getOther_other_witness :
  (∀ u, ∃ r,
     Data.getOther (Spec.sample_app (inr VUndefined)) (Data.OneUser u)
       [Spec.sample_tutor;
        Spec.sample_user (Some "u2") (Some "u2") (Some "bob@test")]
     = inr (Some r) ∧
     r ∈ [Spec.sample_tutor;
          Spec.sample_user (Some "u2") (Some "u2") (Some "bob@test")] ∧
     email r ≠ email u) ∧
  (∀ attendees, ∃ r,
     Data.getOther (Spec.sample_app (inr VUndefined))
       (Data.Attendees
          [Spec.sample_tutor;
           Spec.sample_user (Some "u2") (Some "u2") (Some "bob@test")])
       attendees
     = inr (Some r) ∧
     r ∈ [Spec.sample_tutor;
          Spec.sample_user (Some "u2") (Some "u2") (Some "bob@test")] ∧
     email r ≠ email (app_user (Spec.sample_app (inr VUndefined)))).
Proof.
  apply (getOther_other (Spec.sample_app (inr VUndefined))
           Spec.sample_tutor
           (Spec.sample_user (Some "u2") (Some "u2") (Some "bob@test"))).
  discriminate.
Defined.

(** Without attendees there is nothing to read the email of: the call
    throws, unless it was given the attendees in place of a user. *)
Lemma getOther_no_attendees (app : App) (u : User) :
  ∃ msg, Data.getOther app (Data.OneUser u) [] = inl (TypeError msg).
Proof. by eexists. Qed.

End getOther.

(** ** [Data.prototype.initHourlyCharges] *)

Section charges.

Lemma charges_elem (i : N) :
  i ∈ Data.charges ↔ (5 ≤ i ≤ 200)%N ∧ (5 | i)%N.
Proof.
  unfold Data.charges. rewrite list_elem_of_fmap. split.
  - intros (k & -> & Hk). apply elem_of_seq in Hk. split; [lia|].
    exists (N.of_nat k). lia.
  - intros [Hi [q Hq]]. exists (N.to_nat q). split; [lia|].
    apply elem_of_seq. lia.
Qed.

Lemma charges_distinct : NoDup (Data.chargeString <$> Data.charges).
Proof. apply distinct_NoDup. vm_compute. reflexivity. Qed.

Lemma initHourlyCharges_strings (l : list N) : ∀ p,
  Data.hourlyChargeStrings
    (foldl (λ payments i,
              {| Data.hourlyChargeStrings :=
                   Data.hourlyChargeStrings payments
                   ++ [Data.chargeString i];
                 Data.hourlyChargesMap :=
                   <[Data.chargeString i := i]>
                     (Data.hourlyChargesMap payments) |}) p l)
  = Data.hourlyChargeStrings p ++ (Data.chargeString <$> l).
Proof.
  induction l as [|i l IH]; intros p; simpl.
  - by rewrite app_nil_r.
  - rewrite IH. simpl. by rewrite <-app_assoc.
Qed.

Lemma initHourlyCharges_map (l : list N) : ∀ p,
  Data.hourlyChargesMap
    (foldl (λ payments i,
              {| Data.hourlyChargeStrings :=
                   Data.hourlyChargeStrings payments
                   ++ [Data.chargeString i];
                 Data.hourlyChargesMap :=
                   <[Data.chargeString i := i]>
                     (Data.hourlyChargesMap payments) |}) p l)
  = foldl (λ result e, <[e.1 := e.2]> result) (Data.hourlyChargesMap p)
      ((λ i, (Data.chargeString i, i)) <$> l).
Proof.
  induction l as [|i l IH]; intros p; simpl; [done|]. by rewrite IH.
Qed.

Lemma initHourlyCharges_lookup (p : Data.PaymentsData) (s : string) :
  Data.hourlyChargesMap (Data.initHourlyCharges p) !! s
  = match (list_to_map ((λ i, (Data.chargeString i, i)) <$> Data.charges)
           : gmap string N) !! s with
    | Some i => Some i
    | None => Data.hourlyChargesMap p !! s
    end.
Proof.
  unfold Data.initHourlyCharges. rewrite initHourlyCharges_map.
  apply foldl_insert_lookup.
  rewrite <-list_fmap_compose. apply charges_distinct.
Qed.

Lemma charges_table (s : string) (i : N) :
  (list_to_map ((λ i, (Data.chargeString i, i)) <$> Data.charges)
   : gmap string N) !! s = Some i
  ↔ s = Data.chargeString i ∧ i ∈ Data.charges.
Proof.
  rewrite <-elem_of_list_to_map.
  - rewrite list_elem_of_fmap. split.
    + intros (j & [= -> ->] & Hj). done.
    + intros [-> Hi]. by exists i.
  - rewrite <-list_fmap_compose. apply charges_distinct.
Qed.

Lemma charges_table_None (s : string) :
  (list_to_map ((λ i, (Data.chargeString i, i)) <$> Data.charges)
   : gmap string N) !! s = None
  ↔ (s ∉ Data.chargeString <$> Data.charges).
Proof.
  rewrite <-not_elem_of_list_to_map, <-list_fmap_compose. done.
Qed.

(** [initHourlyCharges] appends to the strings it finds the charge
    strings of the forty multiples of 5 from 5 to 200, which are pairwise
    different; in the map each of them then leads to its amount, no other
    key is touched, and a key of the map leads to an amount that was
    there before or to the amount it spells. *)
Theorem initHourlyCharges_spec (payments : Data.PaymentsData) :
  let payments' := Data.initHourlyCharges payments in
  Data.hourlyChargeStrings payments'
  = Data.hourlyChargeStrings payments
    ++ (Data.chargeString <$> Data.charges) ∧
  length Data.charges = 40%nat ∧
  NoDup (Data.chargeString <$> Data.charges) ∧
  (∀ i, i ∈ Data.charges ↔ (5 ≤ i ≤ 200)%N ∧ (5 | i)%N) ∧
  (∀ i, i ∈ Data.charges →
        Data.hourlyChargesMap payments' !! Data.chargeString i = Some i) ∧
  (∀ s, (s ∉ Data.chargeString <$> Data.charges) →
        Data.hourlyChargesMap payments' !! s
        = Data.hourlyChargesMap payments !! s) ∧
  (∀ s i, Data.hourlyChargesMap payments' !! s = Some i →
          Data.hourlyChargesMap payments !! s = Some i ∨
          (s = Data.chargeString i ∧ i ∈ Data.charges)).
Proof.
  cbv zeta. split_and!.
  - apply initHourlyCharges_strings.
  - reflexivity.
  - apply charges_distinct.
  - apply charges_elem.
  - intros i Hi. rewrite initHourlyCharges_lookup.
    by rewrite (proj2 (charges_table _ i) (conj eq_refl Hi)).
  - intros s Hs. rewrite initHourlyCharges_lookup.
    by rewrite (proj2 (charges_table_None s) Hs).
  - intros s i. rewrite initHourlyCharges_lookup.
    destruct (list_to_map _ !! s) as [j|] eqn:E.
    + intros [= ->]. right. by apply charges_table.
    + by left.
Qed.

(** The payments object sits on the prototype, so every [Data] that is
    constructed runs [initHourlyCharges] on the same object: the second
    run leaves the map as it is and appends the forty strings once
    more. *)
Theorem initHourlyCharges_again (payments : Data.PaymentsData) :
  let once := Data.initHourlyCharges payments in
  let twice := Data.initHourlyCharges once in
  Data.hourlyChargesMap twice = Data.hourlyChargesMap once ∧
  Data.hourlyChargeStrings twice
  = Data.hourlyChargeStrings once
    ++ (Data.chargeString <$> Data.charges) ∧
  length (Data.hourlyChargeStrings twice)
  = (length (Data.hourlyChargeStrings payments) + 80)%nat.
Proof.
  cbv zeta. split_and!.
  - apply map_eq. intros s. rewrite !initHourlyCharges_lookup.
    by destruct (list_to_map _ !! s).
  - apply initHourlyCharges_strings.
  - unfold Data.initHourlyCharges.
    rewrite !initHourlyCharges_strings, !length_app, !length_fmap.
    change (length Data.charges) with 40%nat. lia.
Qed.

End charges.

(** ** [Data.prototype.initPeriods] *)

Section periods.

Implicit Types times periods : gmap string (list string).
Implicit Types d day : string.
Implicit Types s : Timeslot.

(** *** The first loop *)

Lemma slot_lookup d times s day :
  Data.initPeriods_slot d times s !! day
  = if decide (d = day) then Spec.slot_times (times !! day) s
    else times !! day.
Proof.
  unfold Data.initPeriods_slot, Spec.slot_times. cbv zeta.
  destruct (decide (d = day)) as [->|Hd].
  - rewrite !lookup_alter, !decide_True by done.
    destruct (times !! day) as [ts|] eqn:E.
    + by rewrite E.
    + by rewrite lookup_insert, decide_True.
  - rewrite !lookup_alter_ne by done.
    destruct (times !! d); [done|]. by rewrite lookup_insert_ne.
Qed.

Lemma day_lookup d (a : list Timeslot) day : ∀ times,
  foldl (Data.initPeriods_slot d) times a !! day
  = if decide (d = day) then foldl Spec.slot_times (times !! day) a
    else times !! day.
Proof.
  induction a as [|s a IH]; intros times; simpl.
  - by case_decide.
  - rewrite IH, slot_lookup. by case_decide.
Qed.

Lemma hours_lookup (l : list (string * list Timeslot)) day :
  NoDup l.*1 → ∀ times,
  foldl Data.initPeriods_day times l !! day
  = foldl Spec.slot_times (times !! day)
      (default [] ((list_to_map l : gmap string (list Timeslot)) !! day)).
Proof.
  induction l as [|[d a] l IH]; intros Hnd times; simpl.
  - by rewrite lookup_empty.
  - apply NoDup_cons in Hnd as [Hd Hnd]. rewrite IH by done.
    unfold Data.initPeriods_day. simpl. rewrite day_lookup, lookup_insert.
    case_decide as E; [|done]. subst.
    by rewrite (not_elem_of_list_to_map_1 _ _ Hd).
Qed.

Lemma times_lookup (locations : list Location) : ∀ times,
  Forall (λ l, is_Some (hours l)) locations →
  ∃ times', Data.initPeriods_times times locations = inr times' ∧
    ∀ day, times' !! day
           = foldl Spec.slot_times (times !! day)
               (Spec.slots locations day).
Proof.
  induction locations as [|l locations IH]; intros times Hall; simpl.
  - by exists times.
  - apply Forall_cons in Hall as [[h Hh] Hall]. rewrite Hh.
    destruct (IH (foldl Data.initPeriods_day times (map_to_list h)) Hall)
      as (times' & -> & Hlk).
    exists times'. split; [done|]. intros day.
    rewrite Hlk, hours_lookup by apply NoDup_fst_map_to_list.
    rewrite list_to_map_to_list.
    by rewrite foldl_app.
Qed.

Lemma times_throws (locations : list Location) : ∀ times,
  Exists (λ l, hours l = None) locations →
  ∃ msg, Data.initPeriods_times times locations = inl (TypeError msg).
Proof.
  induction locations as [|l locations IH]; intros times Hex; simpl.
  - by apply Exists_nil in Hex.
  - destruct (hours l) as [h|] eqn:Hh; [|by eexists].
    apply Exists_cons in Hex as [Hex|Hex]; [congruence|]. by apply IH.
Qed.

Lemma slot_times_fold (a : list Timeslot) : ∀ s o,
  foldl Spec.slot_times o (s :: a)
  = Some (foldl Data.add_time (default [] o)
            ((s :: a) ≫= Spec.ends_of)).
Proof.
  induction a as [|s' a IH]; intros s o; [done|].
  change (foldl Spec.slot_times o (s :: s' :: a))
    with (foldl Spec.slot_times (Spec.slot_times o s) (s' :: a)).
  by rewrite IH.
Qed.

Lemma add_time_eq (ts : list string) (time : string) :
  Data.add_time ts time
  = if decide (time ∈ ts) then ts else ts ++ [time].
Proof.
  unfold Data.add_time. case_bool_decide as H.
  - apply Array_indexOf_neg in H. by rewrite decide_False.
  - rewrite decide_True; [done|].
    destruct (decide (time ∈ ts)) as [|Hn]; [done|].
    by apply Array_indexOf_neg in Hn.
Qed.

Lemma add_time_fold (l : list string) : ∀ acc,
  NoDup acc →
  NoDup (foldl Data.add_time acc l) ∧
  ∀ x, x ∈ foldl Data.add_time acc l ↔ x ∈ acc ∨ x ∈ l.
Proof.
  induction l as [|y l IH]; intros acc Hnd; simpl.
  - split; [done|]. intros x. rewrite elem_of_nil. tauto.
  - rewrite add_time_eq. case_decide as Hy.
    + destruct (IH acc Hnd) as [Hnd' Hin]. split; [done|].
      intros x. rewrite Hin, elem_of_cons. split; [tauto|].
      intros [H|[->|H]]; tauto.
    + assert (NoDup (acc ++ [y])) as Hnd1.
      { apply NoDup_app. split_and!; [done| |apply NoDup_singleton].
        intros x Hx ->%list_elem_of_singleton. done. }
      destruct (IH _ Hnd1) as [Hnd' Hin]. split; [done|].
      intros x. rewrite Hin, elem_of_app, list_elem_of_singleton,
        elem_of_cons. tauto.
Qed.

Lemma slots_elem (locations : list Location) day s :
  s ∈ Spec.slots locations day ↔ Spec.open_at locations day s.
Proof.
  unfold Spec.slots, Spec.open_at. rewrite list_elem_of_bind. split.
  - intros (l & Hs & Hl). destruct (hours l) as [h|] eqn:Hh; simpl in Hs;
      [|by apply elem_of_nil in Hs].
    destruct (h !! day) as [a|] eqn:Ha; simpl in Hs;
      [|by apply elem_of_nil in Hs].
    by exists l, h, a.
  - intros (l & h & a & Hl & Hh & Ha & Hs). exists l. split; [|done].
    rewrite Hh. simpl. by rewrite Ha.
Qed.

(** *** The second loop *)

Lemma entry_inner_lookup (timeStrings : list string) d
    (l : list string) day : ∀ periods (p0 : list string),
  periods !! d = Some p0 →
  foldl (λ periods time,
           if bool_decide (JS.Array_indexOf timeStrings time < 0)
           then alter (λ p, p ++ [time]) d periods
           else periods) periods l !! day
  = if decide (d = day)
    then Some (p0 ++ filter (λ time, JS.Array_indexOf timeStrings time < 0) l)
    else periods !! day.
Proof.
  induction l as [|t l IH]; intros periods p0 Hp0; simpl.
  - rewrite filter_nil, app_nil_r. case_decide; by subst.
  - rewrite filter_cons.
    case_bool_decide as Ht.
    + rewrite (decide_True (P := JS.Array_indexOf timeStrings t < 0))
        by done.
      rewrite (IH _ (p0 ++ [t]))
        by (by rewrite lookup_alter, decide_True, Hp0).
      case_decide; [by rewrite <-app_assoc|].
      by rewrite lookup_alter_ne.
    + rewrite (decide_False (P := JS.Array_indexOf timeStrings t < 0))
        by done.
      by apply IH.
Qed.

Lemma entry_lookup (timeStrings : list string) periods
    (e : string * list string) day :
  Data.initPeriods_entry timeStrings periods e !! day
  = if decide (e.1 = day)
    then Some (default [] (periods !! day)
               ++ filter (λ time, JS.Array_indexOf timeStrings time < 0) e.2)
    else periods !! day.
Proof.
  unfold Data.initPeriods_entry. cbv zeta.
  destruct (periods !! e.1) as [p0|] eqn:E.
  - rewrite (entry_inner_lookup _ _ _ _ _ p0) by done.
    case_decide; [|done]. subst. by rewrite E.
  - rewrite (entry_inner_lookup _ _ _ _ _ [])
      by (by rewrite lookup_insert, decide_True).
    case_decide.
    + subst. by rewrite E.
    + by rewrite lookup_insert_ne.
Qed.

Lemma entries_lookup (timeStrings : list string)
    (l : list (string * list string)) day :
  NoDup l.*1 → ∀ periods,
  foldl (Data.initPeriods_entry timeStrings) periods l !! day
  = match (list_to_map l : gmap string (list string)) !! day with
    | Some ts =>
        Some (default [] (periods !! day)
              ++ filter (λ time, JS.Array_indexOf timeStrings time < 0) ts)
    | None => periods !! day
    end.
Proof.
  induction l as [|[d ts] l IH]; intros Hnd periods; simpl.
  - by rewrite lookup_empty.
  - apply NoDup_cons in Hnd as [Hd Hnd]. rewrite IH by done.
    rewrite entry_lookup, lookup_insert. simpl. case_decide as E.
    + subst. by rewrite (not_elem_of_list_to_map_1 _ _ Hd).
    + done.
Qed.

Lemma initPeriods_lookup (locations : list Location)
    (timeStrings : list string) :
  Forall (λ l, is_Some (hours l)) locations →
  ∃ periods, Data.initPeriods locations timeStrings = inr periods ∧
    ∀ day, periods !! day
           = match Spec.slots locations day with
             | [] => None
             | a =>
                 Some (filter (λ time, JS.Array_indexOf timeStrings time < 0)
                         (foldl Data.add_time [] (a ≫= Spec.ends_of)))
             end.
Proof.
  intros Hall. unfold Data.initPeriods.
  destruct (times_lookup locations ∅ Hall) as (times & -> & Hlk).
  eexists. split; [done|]. intros day.
  rewrite entries_lookup by apply NoDup_fst_map_to_list.
  rewrite list_to_map_to_list, Hlk, !lookup_empty.
  destruct (Spec.slots locations day) as [|s a]; [done|].
  by rewrite slot_times_fold.
Qed.


End periods.

(** ** [Data.prototype.getLocations], [Data.prototype.initLocations] *)

Section locations.

Implicit Types locations : list Location.
Implicit Types doc d : Snapshot.
Implicit Types l : Location.

(** *** The snapshot callback *)

Lemma findIndex_neg {A} (P : A → Prop) `{∀ x, Decision (P x)}
    (arr : list A) :
  JS.findIndex P arr < 0 → Forall (λ x, ¬ P x) arr.
Proof.
  unfold JS.findIndex. destruct (list_find P arr) as [[i x]|] eqn:E.
  - lia.
  - intros _. by apply list_find_None in E.
Qed.

Lemma findIndex_found {A} (P : A → Prop) `{∀ x, Decision (P x)}
    (arr : list A) :
  ¬ JS.findIndex P arr < 0 →
  ∃ x, arr !! Z.to_nat (JS.findIndex P arr) = Some x ∧ P x.
Proof.
  unfold JS.findIndex. destruct (list_find P arr) as [[i x]|] eqn:E.
  - intros _. apply list_find_Some in E as (Hi & Hx & _).
    exists x. by rewrite Nat2Z.id.
  - lia.
Qed.

Lemma getLocations_next_step locations d :
  NoDup (loc_id <$> locations) →
  let locations' := (Data.getLocations_next locations d).1 in
  (loc_id <$> locations' = loc_id <$> locations ∨
   loc_id <$> locations' = (loc_id <$> locations) ++ [Some (doc_id d)] ∧
   (Some (doc_id d) ∉ loc_id <$> locations)) ∧
  ∀ l, l ∈ locations'
       ↔ l = Data.locationData d ∨
         (l ∈ locations ∧ loc_id l ≠ Some (doc_id d)).
Proof.
  intros Hnd. unfold Data.getLocations_next. cbv zeta. simpl.
  case_bool_decide as Hi.
  - apply findIndex_neg in Hi. rewrite Forall_forall in Hi.
    assert (Some (doc_id d) ∉ loc_id <$> locations) as Hnew.
    { intros (l & Hl & Hin)%list_elem_of_fmap. by apply (Hi l). }
    split.
    + right. by rewrite fmap_app.
    + intros l. rewrite elem_of_app, list_elem_of_singleton. split.
      * intros [Hl| ->]; [right|by left]. split; [done|]. by apply Hi.
      * intros [->|[Hl _]]; [by right|by left].
  - apply findIndex_found in Hi as (l0 & Hl0 & Hid).
    set (i := Z.to_nat _) in *.
    assert (i < length locations)%nat as Hlen
      by (by eapply lookup_lt_Some).
    split.
    + left. rewrite list_fmap_insert. apply list_insert_id.
      by rewrite list_lookup_fmap, Hl0; simpl; rewrite Hid.
    + intros l. rewrite insert_take_drop by done.
      rewrite <-(take_drop_middle locations i l0) in Hnd by done.
      rewrite fmap_app, fmap_cons in Hnd.
      apply NoDup_app in Hnd as (_ & Hdis & Hnd).
      apply NoDup_cons in Hnd as [Hl0' _].
      rewrite <-(take_drop_middle locations i l0) at 3 by done.
      rewrite !elem_of_app, !elem_of_cons. split.
      * intros [Hl|[->|Hl]]; [right|by left|right].
        -- split; [by left|]. intros E.
           apply (Hdis (loc_id l));
             [by apply list_elem_of_fmap_2|].
           rewrite E, <-Hid. apply list_elem_of_here.
        -- split; [by right; right|]. intros E. apply Hl0'.
           rewrite Hid, <-E. by apply list_elem_of_fmap_2.
      * intros [->|[[Hl|[->|Hl]] Hne]]; tauto.
Qed.

Lemma getLocations_snoc (docs : list Snapshot) d :
  Data.getLocations (docs ++ [d])
  = (Data.getLocations_next (Data.getLocations docs) d).1.
Proof. unfold Data.getLocations. by rewrite foldl_app. Qed.

Lemma latest_snoc (docs : list Snapshot) d doc :
  Spec.latest (docs ++ [d]) doc
  ↔ (∃ before, docs = before ∧ doc = d) ∨
    (Spec.latest docs doc ∧ doc_id d ≠ doc_id doc).
Proof.
  split.
  - intros (before & after & E & Hafter).
    destruct (decide (after = [])) as [->|Hne].
    + left. exists docs. split; [done|].
      change (before ++ [doc]) with (before ++ [doc]) in E.
      by apply app_inj_tail in E as [_ <-].
    + right. destruct (exists_last Hne) as (after' & d' & ->).
      rewrite app_comm_cons, app_assoc in E.
      apply app_inj_tail in E as [-> <-]. split.
      * exists before, after'. split; [done|].
        intros x Hx. apply Hafter. apply elem_of_app. by left.
      * apply Hafter. apply elem_of_app. right. apply list_elem_of_here.
  - intros [(before & <- & ->)|[(before & after & -> & Hafter) Hne]].
    + exists docs, []. split; [done|]. intros x Hx.
      by apply elem_of_nil in Hx.
    + exists before, (after ++ [d]). split.
      * by rewrite <-app_assoc.
      * intros x [Hx| ->%list_elem_of_singleton]%elem_of_app;
          [by apply Hafter|done].
Qed.

Lemma getLocations_inv (docs : list Snapshot) :
  NoDup (loc_id <$> Data.getLocations docs) ∧
  (∀ l, l ∈ Data.getLocations docs
        ↔ ∃ doc, Spec.latest docs doc ∧ l = Data.locationData doc) ∧
  (∀ doc rest, docs = doc :: rest →
     (loc_id <$> Data.getLocations docs) !! 0%nat
     = Some (Some (doc_id doc))).
Proof.
  induction docs as [|d docs (Hnd & Hin & Hfirst)] using rev_ind.
  - split_and!; [constructor| |done].
    intros l. split; [by intros ?%elem_of_nil|].
    intros (doc & ([|??] & ? & E & _) & _); discriminate.
  - rewrite getLocations_snoc.
    destruct (getLocations_next_step _ d Hnd) as [Hids Hmem].
    cbv zeta in *. split_and!.
    + destruct Hids as [->|[-> Hnew]]; [done|].
      apply NoDup_app. split_and!; [done| |apply NoDup_singleton].
      intros x Hx ->%list_elem_of_singleton. done.
    + intros l. rewrite Hmem. split.
      * intros [->|[Hl Hne]].
        -- exists d. split; [|done]. apply latest_snoc. left.
           by exists docs.
        -- apply Hin in Hl as (doc & Hdoc & ->). exists doc.
           split; [|done]. apply latest_snoc. right. split; [done|].
           intros E. apply Hne. simpl. by rewrite E.
      * intros (doc & [(_ & _ & ->)|[Hdoc Hne]]%latest_snoc & ->);
          [by left|right].
        split; [apply Hin; by exists doc|]. simpl. congruence.
    + intros doc rest E. destruct docs as [|d0 docs].
      * simpl in E. injection E as <- <-. done.
      * simpl in E. injection E as <- <-.
        specialize (Hfirst d0 docs eq_refl).
        destruct Hids as [->|[-> _]]; [done|].
        rewrite lookup_app_l; [done|].
        by eapply lookup_lt_Some.
Qed.


(** *** The look-up tables *)

Lemma initLocations_snoc locations l :
  Data.initLocations (locations ++ [l])
  = Data.initLocations_each (Data.initLocations locations) l.
Proof. unfold Data.initLocations. by rewrite foldl_app. Qed.

Section table.

(** One of the two tables of locations, with its key. *)
Variable key : Location → string.
Variable table : Data.Tables → gmap string Location.
Hypothesis table_nil : table (Data.initLocations []) = ∅.
Hypothesis table_each : ∀ t l,
  table (Data.initLocations_each t l) = <[key l := l]> (table t).

Lemma table_sound locations k l :
  table (Data.initLocations locations) !! k = Some l →
  l ∈ locations ∧ key l = k.
Proof.
  induction locations as [|x locations IH] using rev_ind.
  - by rewrite table_nil, lookup_empty.
  - rewrite initLocations_snoc, table_each, lookup_insert.
    case_decide as E.
    + intros [= <-]. split; [|done]. apply elem_of_app. right.
      apply list_elem_of_here.
    + intros [Hl Hk]%IH. split; [|done]. apply elem_of_app. by left.
Qed.

Lemma table_total locations l :
  l ∈ locations →
  is_Some (table (Data.initLocations locations) !! key l).
Proof.
  induction locations as [|x locations IH] using rev_ind.
  - by intros ?%elem_of_nil.
  - rewrite initLocations_snoc, table_each, lookup_insert.
    case_decide; [done|].
    intros [Hl| ->%list_elem_of_singleton]%elem_of_app; [by apply IH|done].
Qed.

Lemma table_complete locations l :
  NoDup (key <$> locations) → l ∈ locations →
  table (Data.initLocations locations) !! key l = Some l.
Proof.
  induction locations as [|x locations IH] using rev_ind.
  - by intros _ ?%elem_of_nil.
  - rewrite fmap_app. intros (Hnd & Hdis & _)%NoDup_app.
    rewrite initLocations_snoc, table_each, lookup_insert.
    intros [Hl| ->%list_elem_of_singleton]%elem_of_app.
    + case_decide as E; [|by apply IH].
      destruct (Hdis (key l)); [by apply list_elem_of_fmap_2|].
      rewrite <-E. apply list_elem_of_here.
    + by rewrite decide_True.
Qed.

End table.

Lemma initLocations_arrays locations :
  Data.names (Data.initLocations locations) = loc_name <$> locations ∧
  Data.ids (Data.initLocations locations) = loc_id <$> locations ∧
  Data.locationsByID (Data.initLocations locations)
  = loc_name <$> Data.locationDataByID (Data.initLocations locations) ∧
  Data.locationsByName (Data.initLocations locations)
  = loc_id <$> Data.locationDataByName (Data.initLocations locations).
Proof.
  induction locations as [|x locations (H1 & H2 & H3 & H4)] using rev_ind.
  - split_and!; try done; simpl; by rewrite fmap_empty.
  - rewrite initLocations_snoc. simpl. rewrite !fmap_app, !fmap_insert.
    by rewrite H1, H2, H3, H4.
Qed.

Lemma shown_ids_NoDup locations :
  Forall (λ l, is_Some (loc_id l)) locations →
  NoDup (loc_id <$> locations) →
  NoDup ((λ l, JS.shown (loc_id l)) <$> locations).
Proof.
  induction locations as [|x locations IH]; intros Hall Hnd.
  - constructor.
  - apply Forall_cons in Hall as [[i Hi] Hall].
    rewrite fmap_cons in Hnd. apply NoDup_cons in Hnd as [Hx Hnd].
    rewrite fmap_cons. apply NoDup_cons. split; [|by apply IH].
    intros (y & E & Hy)%list_elem_of_fmap. apply Hx.
    rewrite Forall_forall in Hall. destruct (Hall y Hy) as [j Hj].
    rewrite Hi, Hj in E. simpl in E. subst j.
    rewrite Hi, <-Hj. by apply list_elem_of_fmap_2.
Qed.

Lemma initLocations_byID locations i l :
  Forall (λ l, is_Some (loc_id l)) locations →
  NoDup (loc_id <$> locations) →
  Data.locationDataByID (Data.initLocations locations) !! i = Some l
  ↔ l ∈ locations ∧ loc_id l = Some i.
Proof.
  intros Hall Hnd. split.
  - intros Hl.
    apply (table_sound (λ l, JS.shown (loc_id l)) Data.locationDataByID)
      in Hl as [Hl Hk]; [|done..].
    split; [done|]. rewrite Forall_forall in Hall.
    destruct (Hall l Hl) as [j Hj]. rewrite Hj in Hk. simpl in Hk.
    by subst.
  - intros [Hl Hi].
    rewrite <-(table_complete (λ l, JS.shown (loc_id l))
                 Data.locationDataByID (λ _ _, eq_refl)
                 locations l (shown_ids_NoDup _ Hall Hnd) Hl).
    by rewrite Hi.
Qed.

(** For locations that all have an id, no two the same, as
    [getLocations] leaves them, the tables of [initLocations] are right:
    the names and the ids are listed in the order of the locations, a
    location is found under its id and nothing else is, what is found
    under a name is a location of that name, every name finds one, and
    the two tables by id agree, as do the two by name. When no two
    locations share a name either, a name leads to its id and the id
    back to the name. *)
Theorem initLocations_tables locations :
  Forall (λ l, is_Some (loc_id l)) locations →
  NoDup (loc_id <$> locations) →
  let t := Data.initLocations locations in
  Data.names t = loc_name <$> locations ∧
  Data.ids t = loc_id <$> locations ∧
  Data.locationsByID t = loc_name <$> Data.locationDataByID t ∧
  Data.locationsByName t = loc_id <$> Data.locationDataByName t ∧
  (∀ i l, Data.locationDataByID t !! i = Some l
          ↔ l ∈ locations ∧ loc_id l = Some i) ∧
  (∀ n l, Data.locationDataByName t !! n = Some l →
          l ∈ locations ∧ JS.shown (loc_name l) = n) ∧
  (∀ l, l ∈ locations →
        is_Some (Data.locationDataByName t !! JS.shown (loc_name l))) ∧
  (NoDup ((λ l, JS.shown (loc_name l)) <$> locations) →
   ∀ l i, l ∈ locations → loc_id l = Some i →
     Data.locationsByName t !! JS.shown (loc_name l) = Some (Some i) ∧
     Data.locationsByID t !! i = Some (loc_name l)).
Proof.
  intros Hall Hnd. cbv zeta.
  destruct (initLocations_arrays locations) as (H1 & H2 & H3 & H4).
  split_and!; try done.
  - intros i l. by apply initLocations_byID.
  - intros n l.
    by apply (table_sound (λ l, JS.shown (loc_name l))
                Data.locationDataByName).
  - intros l.
    by apply (table_total (λ l, JS.shown (loc_name l))
                Data.locationDataByName).
  - intros Hnames l i Hl Hi. rewrite H3, H4, !lookup_fmap.
    rewrite (table_complete (λ l, JS.shown (loc_name l))
               Data.locationDataByName (λ _ _, eq_refl)
               locations l Hnames Hl).
    rewrite (proj2 (initLocations_byID locations i l Hall Hnd)
               (conj Hl Hi)).
    simpl. by rewrite Hi.
Qed.

Lemma initLocations_tables_witness :
  let locations :=
    [Spec.sample_location "gunn" "Gunn Academic Center";
     Spec.sample_location "paly" "Paly Peer Tutoring Center"] in
  let t := Data.initLocations locations in
  Data.locationsByName t !! "Paly Peer Tutoring Center"
  = Some (Some "paly") ∧
  Data.locationsByID t !! "paly" = Some (Some "Paly Peer Tutoring Center").
Proof.
  cbv zeta.
  destruct (initLocations_tables
              [Spec.sample_location "gunn" "Gunn Academic Center";
               Spec.sample_location "paly" "Paly Peer Tutoring Center"])
    as (_ & _ & _ & _ & _ & _ & _ & Hround).
  - repeat constructor; by eexists.
  - apply (bool_decide_unpack (NoDup _)). reflexivity.
  - apply (λ H, Hround H
             (Spec.sample_location "paly" "Paly Peer Tutoring Center")
             "paly").
    + apply (bool_decide_unpack (NoDup _)). reflexivity.
    + apply list_elem_of_further, list_elem_of_here.
    + reflexivity.
Defined.

(** From the snapshots to the table: after [getLocations] and the
    [forEach] of [initLocations], an id leads to a location exactly when
    a snapshot of the document with that id has arrived, and the location
    is then the data of the latest such snapshot. *)
Theorem initLocations_latest (docs : list Snapshot) (i : string) l :
  Data.locationDataByID (Data.initLocations (Data.getLocations docs)) !! i
  = Some l
  ↔ ∃ doc, Spec.latest docs doc ∧ doc_id doc = i ∧
           l = Data.locationData doc.
Proof.
  destruct (getLocations_inv docs) as (Hnd & Hin & _).
  assert (Forall (λ l, is_Some (loc_id l)) (Data.getLocations docs))
    as Hall.
  { apply Forall_forall. intros x (doc & _ & ->)%Hin. by eexists. }
  rewrite initLocations_byID by done. rewrite Hin. split.
  - intros [(doc & Hdoc & ->) [= <-]]. by exists doc.
  - intros (doc & Hdoc & <- & ->). split; [by exists doc|done].
Qed.

End locations.

(** ** [Analytics.url], [Analytics.log] *)

Section analytics.

Lemma split_third (s0 s1 s2 more : string) :
  Spec.lacks "/"%char s0 = true → Spec.lacks "/"%char s1 = true →
  Spec.lacks "/"%char s2 = true →
  JS.split (s0 +:+ "/" +:+ s1 +:+ "/" +:+ s2) "/"%char !! 2%nat
  = Some s2 ∧
  JS.split (s0 +:+ "/" +:+ s1 +:+ "/" +:+ s2 +:+ "/" +:+ more) "/"%char
    !! 2%nat = Some s2.
Proof.
  intros H0 H1 H2. unfold JS.split.
  change (s0 +:+ "/" +:+ s1 +:+ "/" +:+ s2)
    with (s0 +:+ String "/"%char (s1 +:+ String "/"%char s2)).
  change (s0 +:+ "/" +:+ s1 +:+ "/" +:+ s2 +:+ "/" +:+ more)
    with (s0 +:+ String "/"%char
            (s1 +:+ String "/"%char (s2 +:+ String "/"%char more))).
  rewrite !(split_go_sep _ s0), !(split_go_sep _ s1) by done.
  rewrite split_go_lacks, split_go_sep by done. done.
Qed.

(** [url] sets the current screen to the third part of the URL, counting
    the parts between the slashes from what comes before the first slash:
    "home" for "/app/home", whatever follows a further slash. With
    Analytics not enabled [url] throws, where [log] warns and
    returns. *)
Theorem url_third_part (s0 s1 s2 more : string) :
  Spec.lacks "/"%char s0 = true → Spec.lacks "/"%char s1 = true →
  Spec.lacks "/"%char s2 = true →
  Analytics.url true (s0 +:+ "/" +:+ s1 +:+ "/" +:+ s2)
  = ([], inr (Analytics.setCurrentScreen (Some s2))) ∧
  Analytics.url true (s0 +:+ "/" +:+ s1 +:+ "/" +:+ s2 +:+ "/" +:+ more)
  = ([], inr (Analytics.setCurrentScreen (Some s2))) ∧
  Analytics.url true (s0 +:+ "/" +:+ s1)
  = ([], inr (Analytics.setCurrentScreen None)) ∧
  (∀ u, ∃ msg, Analytics.url false u = ([], inl (TypeError msg))) ∧
  (∀ eventName, ∃ line,
     Analytics.log false eventName = ([ConsoleWarn line], inr None)).
Proof.
  intros H0 H1 H2.
  destruct (split_third s0 s1 s2 more H0 H1 H2) as [E1 E2].
  unfold Analytics.url. cbv zeta. rewrite E1, E2. split_and!; try done.
  - unfold JS.split.
    change (s0 +:+ "/" +:+ s1) with (s0 +:+ String "/"%char s1).
    by rewrite split_go_sep, split_go_lacks by done.
  - intros u. by eexists.
  - intros eventName. by eexists.
Qed.

Lemma url_third_part_witness :
  Analytics.url true "/app/home"
  = ([], inr (Analytics.setCurrentScreen (Some "home"))) ∧
  Analytics.url true "/app/users/u1"
  = ([], inr (Analytics.setCurrentScreen (Some "users"))).
Proof.
  destruct (url_third_part "" "app" "home" "")
    as (E1 & _); [reflexivity..|].
  destruct (url_third_part "" "app" "users" "u1")
    as (_ & E2 & _); [reflexivity..|].
  split; [exact E1|exact E2].
Defined.

End analytics.

(** ** [Data.trimObject] *)

Section trim_ascii.

Lemma trim_end_idem (s : string) :
  Spec.trim_end (Spec.trim_end s) = Spec.trim_end s.
Proof.
  induction s as [|a s IH]; simpl; [done|].
  destruct (Spec.trim_end s) as [|b t] eqn:E.
  - destruct (Spec.is_space a) eqn:Ha; simpl; [done|]. by rewrite Ha.
  - change (Spec.trim_end (String a (String b t)))
      with (match Spec.trim_end (String b t) with
            | EmptyString => if Spec.is_space a then "" else String a ""
            | t' => String a t'
            end).
    by rewrite IH.
Qed.

Lemma trim_end_head (a : Ascii.ascii) (s : string) :
  Spec.is_space a = false → ∃ t, Spec.trim_end (String a s) = String a t.
Proof.
  intros Ha. simpl. destruct (Spec.trim_end s); rewrite ?Ha; by eexists.
Qed.

Lemma trim_start_head (s : string) :
  Spec.trim_start s = "" ∨
  ∃ a t, Spec.trim_start s = String a t ∧ Spec.is_space a = false.
Proof.
  induction s as [|a s IH]; simpl; [by left|].
  destruct (Spec.is_space a) eqn:Ha; [done|]. right. by exists a, s.
Qed.

Lemma trim_ascii_idem (s : string) :
  Spec.trim_ascii (Spec.trim_ascii s) = Spec.trim_ascii s.
Proof.
  unfold Spec.trim_ascii.
  destruct (trim_start_head s) as [->|(a & t & -> & Ha)]; [done|].
  destruct (trim_end_head a t Ha) as [t' E]. rewrite E.
  change (Spec.trim_start (String a t'))
    with (if Spec.is_space a then Spec.trim_start t' else String a t').
  rewrite Ha, <-E. apply trim_end_idem.
Qed.

End trim_ascii.

Section trimObject.

Variable trim : string → string.

Lemma json_ind' (P : json → Prop) :
  (∀ s, P (JString s)) → (∀ n, P (JNumber n)) → (∀ b, P (JBool b)) →
  P JUndefined → P JNull → P JDate →
  (∀ items, Forall P items → P (JArray items)) →
  (∀ entries, Forall (λ e, P e.2) entries → P (JObject entries)) →
  ∀ v, P v.
Proof.
  intros Hs Hn Hb Hu Hnull Hd Ha Ho. fix IH 1.
  intros [s|n|b| | | |items|entries];
    [apply Hs|apply Hn|apply Hb|exact Hu|exact Hnull|exact Hd| |].
  - apply Ha. induction items as [|v items IHl]; constructor;
      [apply IH|exact IHl].
  - apply Ho. induction entries as [|[k v] es IHl]; constructor;
      [apply IH|exact IHl].
Qed.

Lemma Forall2_diag {A} (R : A → A → Prop) (l : list A) :
  Forall (λ x, R x x) l → Forall2 R l l.
Proof. induction 1; by constructor. Qed.

Lemma existsb_false {A} (f : A → bool) (l : list A) :
  existsb f l = false ↔ Forall (λ x, f x = false) l.
Proof.
  induction l as [|x l IH]; simpl.
  - split; [constructor|done].
  - rewrite orb_false_iff, IH, Forall_cons. done.
Qed.

(** *** The loops *)

Lemma set_entry_inr k v rest es :
  Data.set_entry k v rest = inr es
  ↔ ∃ w es', v = inr w ∧ rest = inr es' ∧ es = (k, w) :: es'.
Proof.
  unfold Data.set_entry. split.
  - destruct v as [e|w]; [done|]. destruct rest as [e'|es']; [done|].
    intros [= <-]. by exists w, es'.
  - intros (w & es' & -> & -> & ->). done.
Qed.

Lemma object_inr r x :
  Data.object x = inr r ↔ ∃ es, x = inr es ∧ r = JObject es.
Proof.
  unfold Data.object. destruct x as [e|es]; split.
  - intros [=].
  - intros (? & [=] & _).
  - intros [= <-]. by exists es.
  - intros (es' & [= <-] & ->). done.
Qed.

Lemma each_entry_inr es : ∀ es',
  Data.each_entry trim (Data.trimObject trim) es = inr es'
  ↔ Forall2 (λ e e', e'.1 = e.1 ∧
               Data.trim_entry trim (Data.trimObject trim) e.2 = inr e'.2)
      es es'.
Proof.
  induction es as [|[k v] es IH]; intros es'; simpl.
  - split; [intros [= <-]; constructor|]. by intros ->%Forall2_nil_inv_l.
  - rewrite set_entry_inr. split.
    + intros (w & es'' & Hv & Hrest & ->). constructor; [done|].
      by apply IH.
    + intros ([k' w] & es'' & [Hk Hv] & Hrest & ->)%Forall2_cons_inv_l.
      simpl in *. subst k'. exists w, es''. split_and!; [done| |done].
      by apply IH.
Qed.

Lemma each_item_inr items : ∀ i es',
  Data.each_item trim (Data.trimObject trim) i items = inr es'
  ↔ Forall2 (λ v e',
               Data.trim_entry trim (Data.trimObject trim) v = inr e'.2)
      items es' ∧
    es'.*1 = (λ j, JS.toString (N.of_nat j)) <$> seq i (length items).
Proof.
  induction items as [|v items IH]; intros i es'; simpl.
  - split.
    + intros [= <-]. split; [constructor|done].
    + intros [->%Forall2_nil_inv_l _]. done.
  - rewrite set_entry_inr. split.
    + intros (w & es'' & Hv & Hrest & ->).
      apply IH in Hrest as [Hall Hkeys].
      split; [by constructor|]. simpl. f_equal. exact Hkeys.
    + intros [([k' w] & es'' & Hv & Hrest & ->)%Forall2_cons_inv_l Hkeys].
      simpl in *. injection Hkeys as -> Hkeys.
      exists w, es''. split_and!; [done| |done]. by apply IH.
Qed.

Lemma trimObject_object r ob :
  Data.trimObject trim ob = inr r → ∃ es, r = JObject es.
Proof.
  destruct ob; simpl; try (intros [= <-]; by eexists); try done.
  - intros (es & _ & ->)%object_inr. by eexists.
  - intros (es & _ & ->)%object_inr. by eexists.
Qed.

(** *** Running it again *)

Lemma trim_entry_idem v w :
  (∀ s, trim (trim s) = trim s) →
  (∀ r, Data.trimObject trim v = inr r → Data.trimObject trim r = inr r) →
  Data.trim_entry trim (Data.trimObject trim) v = inr w →
  Data.trim_entry trim (Data.trimObject trim) w = inr w.
Proof.
  intros Hidem IH. destruct v; unfold Data.trim_entry;
    try (by intros [= <-]).
  - intros [= <-]. by rewrite Hidem.
  - intros H. destruct (trimObject_object _ _ H) as [es ->]. by apply IH.
  - intros H. destruct (trimObject_object _ _ H) as [es ->]. by apply IH.
Qed.

(** With a [trim] that does nothing to a trimmed string, as the one of
    JavaScript, what [trimObject] returns is left as it is by
    [trimObject]: every string in it is trimmed, at every depth. *)
Theorem trimObject_idempotent :
  (∀ s, trim (trim s) = trim s) →
  ∀ ob r, Data.trimObject trim ob = inr r → Data.trimObject trim r = inr r.
Proof.
  intros Hidem ob.
  induction ob as [s|n|b| | | |items IH|entries IH] using json_ind';
    intros r; simpl; try (by intros [= <-]); try done.
  - intros [= <-]. simpl. apply object_inr. eexists. split; [|done].
    apply each_entry_inr, Forall2_diag, Forall_forall.
    intros e (i & c & -> & _)%elem_of_lookup_imap. simpl.
    by rewrite Hidem.
  - intros (es & [Hall _]%each_item_inr & ->)%object_inr. simpl.
    apply object_inr. exists es. split; [|done]. apply each_entry_inr.
    clear -Hall IH Hidem.
    induction Hall as [|v e items es Hv Hall IHa]; constructor.
    + split; [done|]. apply Forall_cons in IH as [IHv _].
      by apply (trim_entry_idem v).
    + apply IHa. by apply Forall_cons in IH as [_ ?].
  - intros (es & Hall%each_entry_inr & ->)%object_inr. simpl.
    apply object_inr. exists es. split; [|done]. apply each_entry_inr.
    clear -Hall IH Hidem.
    induction Hall as [|e e' items es [Hk Hv] Hall IHa]; constructor.
    + split; [done|]. apply Forall_cons in IH as [IHv _].
      by apply (trim_entry_idem e.2).
    + apply IHa. by apply Forall_cons in IH as [_ ?].
Qed.

(** *** What it returns and when it throws *)

Lemma trim_entry_arrays v w :
  (∀ r, Data.trimObject trim v = inr r → Spec.arrays r = false) →
  Data.trim_entry trim (Data.trimObject trim) v = inr w →
  Spec.arrays w = false.
Proof.
  intros IH. destruct v; unfold Data.trim_entry;
    try (by intros [= <-]); apply IH.
Qed.

Lemma trimObject_arrays : ∀ ob r,
  Data.trimObject trim ob = inr r → Spec.arrays r = false.
Proof.
  intros ob.
  induction ob as [s|n|b| | | |items IH|entries IH] using json_ind';
    intros r; simpl; try (by intros [= <-]); try done.
  - intros [= <-]. simpl. apply existsb_false, Forall_forall.
    by intros e (i & c & -> & _)%elem_of_lookup_imap.
  - intros (es & [Hall _]%each_item_inr & ->)%object_inr. simpl.
    apply existsb_false. clear -Hall IH.
    induction Hall as [|v e items es Hv Hall IHa]; constructor.
    + apply Forall_cons in IH as [IHv _].
      by apply (trim_entry_arrays v).
    + apply IHa. by apply Forall_cons in IH as [_ ?].
  - intros (es & Hall%each_entry_inr & ->)%object_inr. simpl.
    apply existsb_false. clear -Hall IH.
    induction Hall as [|e e' items es [Hk Hv] Hall IHa]; constructor.
    + apply Forall_cons in IH as [IHv _].
      by apply (trim_entry_arrays e.2).
    + apply IHa. by apply Forall_cons in IH as [_ ?].
Qed.

Lemma trimObject_keys ob r :
  Data.trimObject trim ob = inr r →
  (∃ l, ob = JArray l) ∨ (∃ l, ob = JObject l) →
  Spec.keys r = Spec.keys ob.
Proof.
  intros Hr [[items ->]|[entries ->]]; simpl in Hr.
  - apply object_inr in Hr as (es & [_ Hkeys]%each_item_inr & ->).
    done.
  - apply object_inr in Hr as (es & Hall%each_entry_inr & ->). simpl.
    induction Hall as [|e e' items es [Hk Hv] Hall IHa]; [done|].
    rewrite !fmap_cons. by f_equal.
Qed.

(** What [trimObject] does with [v] when it meets it as the value of an
    entry, or as its argument: it throws a [TypeError] when [v] holds a
    [null], and returns otherwise. *)
Lemma trimObject_cases : ∀ v,
  (Spec.nulls v = true →
   (∃ msg, Data.trim_entry trim (Data.trimObject trim) v
           = inl (TypeError msg)) ∧
   (∃ msg, Data.trimObject trim v = inl (TypeError msg))) ∧
  (Spec.nulls v = false →
   (∃ w, Data.trim_entry trim (Data.trimObject trim) v = inr w) ∧
   (v ≠ JUndefined → ∃ r, Data.trimObject trim v = inr r)).
Proof.
  intros v.
  induction v as [s|n|b| | | |items IH|entries IH] using json_ind';
    simpl; try (split; [done|]; intros _; split; [|intros _];
                by eexists).
  - split; [done|]. intros _. split; [by eexists|done].
  - split; [|done]. intros _. split; by eexists.
  - assert (∀ i,
      (existsb Spec.nulls items = true →
       ∃ msg, Data.each_item trim (Data.trimObject trim) i items
              = inl (TypeError msg)) ∧
      (existsb Spec.nulls items = false →
       ∃ es, Data.each_item trim (Data.trimObject trim) i items
             = inr es)) as Hloop.
    { induction items as [|v items IHl]; intros i; simpl.
      - split; [done|]. intros _. by eexists.
      - apply Forall_cons in IH as [[Ht Hf] IH].
        destruct (IHl IH (S i)) as [IHt IHf].
        destruct (Spec.nulls v) eqn:Hv; simpl.
        + split; [|done]. intros _.
          destruct (Ht eq_refl) as [[msg ->] _]. by exists msg.
        + destruct (Hf eq_refl) as [[w ->] _]. simpl. split.
          * intros [msg ->]%IHt. by exists msg.
          * intros [es ->]%IHf. by eexists. }
    destruct (Hloop 0%nat) as [Ht Hf]. split.
    + intros [msg E]%Ht. rewrite E. split; by exists msg.
    + intros [es E]%Hf. rewrite E. split; [|intros _]; by eexists.
  - assert (
      (existsb (λ e, Spec.nulls e.2) entries = true →
       ∃ msg, Data.each_entry trim (Data.trimObject trim) entries
              = inl (TypeError msg)) ∧
      (existsb (λ e, Spec.nulls e.2) entries = false →
       ∃ es, Data.each_entry trim (Data.trimObject trim) entries
             = inr es)) as [Ht Hf].
    { induction entries as [|[k v] entries IHl]; simpl.
      - split; [done|]. intros _. by eexists.
      - apply Forall_cons in IH as [[Ht Hf] IH]. simpl in Ht, Hf.
        destruct (IHl IH) as [IHt IHf].
        destruct (Spec.nulls v) eqn:Hv; simpl.
        + split; [|done]. intros _.
          destruct (Ht eq_refl) as [[msg ->] _]. by exists msg.
        + destruct (Hf eq_refl) as [[w ->] _]. simpl. split.
          * intros [msg ->]%IHt. by exists msg.
          * intros [es ->]%IHf. by eexists. }
    split.
    + intros [msg E]%Ht. rewrite E. split; by exists msg.
    + intros [es E]%Hf. rewrite E. split; [|intros _]; by eexists.
Qed.


End trimObject.

Section trimObject_samples.


Lemma trimObject_idempotent_witness :
  Data.trimObject Spec.trim_ascii
    (JObject
       [("subject", JString "Algebra 1");
        ("time", JObject [("day", JString "Monday"); ("when", JDate)]);
        ("attendees",
         JObject [("0", JString "ada@test"); ("1", JString "bob@test")]);
        ("amount", JNumber 25)])
  = inr (JObject
       [("subject", JString "Algebra 1");
        ("time", JObject [("day", JString "Monday"); ("when", JDate)]);
        ("attendees",
         JObject [("0", JString "ada@test"); ("1", JString "bob@test")]);
        ("amount", JNumber 25)]).
Proof.
  apply (trimObject_idempotent Spec.trim_ascii trim_ascii_idem
           Spec.sample_request).
  vm_compute. reflexivity.
Defined.

(** The sample request, trimmed. *)
Example trimObject_sample :
  Data.trimObject Spec.trim_ascii Spec.sample_request
  = inr (JObject
       [("subject", JString "Algebra 1");
        ("time", JObject [("day", JString "Monday"); ("when", JDate)]);
        ("attendees",
         JObject [("0", JString "ada@test"); ("1", JString "bob@test")]);
        ("amount", JNumber 25)]).
Proof. vm_compute. reflexivity. Qed.

End trimObject_samples.
